(** * muSR: spectrum and polarisation of a small spin cluster

    A shallow embedding of [Week 2/model2_1.py].  NumPy's floating-point
    numbers are read as real numbers, so every statement below is about the
    exact arithmetic the program approximates.  Arrays carry their shape, and
    the operations that NumPy refuses on a bad shape or index return the
    exception it raises. *)

From Stdlib Require Import Reals Lra Lia ZArith String FunctionalExtensionality.
From stdpp Require Import base gmap sets list strings.

Open Scope R_scope.

(** ** Exceptions *)

Inductive exn : Set := LinAlgError | ValueError | IndexError | OverflowError.

Inductive result (A : Type) : Type :=
  | Ok (a : A)
  | Raise (e : exn).
Arguments Ok {A} a.
Arguments Raise {A} e.

#[global] Instance result_ret : MRet result := fun A a => Ok a.
#[global] Instance result_bind : MBind result := fun A B f r =>
  match r with Ok a => f a | Raise e => Raise e end.
#[global] Instance result_fmap : FMap result := fun A B f r =>
  match r with Ok a => Ok (f a) | Raise e => Raise e end.

Definition is_Ok {A} (r : result A) : Prop := exists a, r = Ok a.

#[global] Instance Rlt_decision (x y : R) : Decision (x < y) := Rlt_dec x y.

(** ** Complex numbers, as NumPy's complex128 read over the reals *)

Definition complex : Type := R * R.

Definition RtoC (x : R) : complex := (x, 0).
Definition c_add (z w : complex) : complex := (z.1 + w.1, z.2 + w.2).
Definition c_sub (z w : complex) : complex := (z.1 - w.1, z.2 - w.2).
Definition c_mul (z w : complex) : complex :=
  (z.1 * w.1 - z.2 * w.2, z.1 * w.2 + z.2 * w.1).
Definition c_conj (z : complex) : complex := (z.1, - z.2).
(** [np.abs] on a complex entry. *)
Definition c_abs (z : complex) : R := sqrt (z.1 * z.1 + z.2 * z.2).

(** The imaginary unit, Python's [1j]. *)
Definition j1 : complex := (0, 1).

Fixpoint c_sum (n : nat) (f : nat -> complex) : complex :=
  match n with
  | O => RtoC 0
  | S k => c_add (c_sum k f) (f k)
  end.

Fixpoint Rsum (n : nat) (f : nat -> R) : R :=
  match n with
  | O => 0
  | S k => Rsum k f + f k
  end.

(** ** Two-dimensional arrays *)

Record ndarray (T : Type) : Type := mk_ndarray {
  nrows : nat;
  ncols : nat;
  item : nat -> nat -> T
}.
Arguments mk_ndarray {T} _ _ _.
Arguments nrows {T} _.
Arguments ncols {T} _.
Arguments item {T} _ _ _.

Definition shape {T} (a : ndarray T) : nat * nat := (nrows a, ncols a).

(** Two arrays are equal when they have the same shape and the same entry at
    every index inside it ([np.array_equal]). *)
Definition nd_eq {T} (a b : ndarray T) : Prop :=
  nrows a = nrows b /\ ncols a = ncols b /\
  forall i j, (i < nrows a)%nat -> (j < ncols a)%nat -> item a i j = item b i j.

(** [np.array] on a nested list literal. *)
Definition np_array (l : list (list complex)) : ndarray complex :=
  mk_ndarray (length l) (length (nth 0 l []))
             (fun i j => nth j (nth i l []) (RtoC 0)).

(** [np.eye(n)]. *)
Definition np_eye (n : nat) : ndarray complex :=
  mk_ndarray n n (fun i j => if (i =? j)%nat then RtoC 1 else RtoC 0).

(** [a[i, j]] for indices taken from a [range]: IndexError outside the shape. *)
Definition nd_get {T} (a : ndarray T) (i j : nat) : result T :=
  if (i <? nrows a)%nat && (j <? ncols a)%nat then Ok (item a i j)
  else Raise IndexError.

(** [v[i]] on a one-dimensional array or a list. *)
Definition vec_get {T} (v : list T) (i : nat) : result T :=
  match v !! i with
  | Some x => Ok x
  | None => Raise IndexError
  end.

Definition nd_map {T U} (f : T -> U) (a : ndarray T) : ndarray U :=
  mk_ndarray (nrows a) (ncols a) (fun i j => f (item a i j)).

(** NumPy broadcasting of one axis: equal lengths, or one of them is 1. *)
Definition bdim (a b : nat) : option nat :=
  if (a =? b)%nat then Some a
  else if (a =? 1)%nat then Some b
  else if (b =? 1)%nat then Some a
  else None.

Definition bidx (d i : nat) : nat := if (d =? 1)%nat then O else i.

(** Elementwise binary operation on two arrays, ValueError when the shapes
    do not broadcast. *)
Definition nd_zip {T U V} (f : T -> U -> V) (a : ndarray T) (b : ndarray U)
  : result (ndarray V) :=
  match bdim (nrows a) (nrows b), bdim (ncols a) (ncols b) with
  | Some r, Some c =>
      Ok (mk_ndarray r c (fun i j =>
            f (item a (bidx (nrows a) i) (bidx (ncols a) j))
              (item b (bidx (nrows b) i) (bidx (ncols b) j))))
  | _, _ => Raise ValueError
  end.

(** [a.T] *)
Definition nd_T {T} (a : ndarray T) : ndarray T :=
  mk_ndarray (ncols a) (nrows a) (fun i j => item a j i).

(** [a @ b]: ValueError unless the inner dimensions agree. *)
Definition matmul (a b : ndarray complex) : result (ndarray complex) :=
  if (ncols a =? nrows b)%nat then
    Ok (mk_ndarray (nrows a) (ncols b)
          (fun i j => c_sum (ncols a) (fun k => c_mul (item a i k) (item b k j))))
  else Raise ValueError.

(** [np.kron(a, b)] on two-dimensional arrays. *)
Definition np_kron (a b : ndarray complex) : ndarray complex :=
  mk_ndarray (nrows a * nrows b) (ncols a * ncols b)
    (fun i j => c_mul (item a (i / nrows b) (j / ncols b))
                      (item b (i mod nrows b) (j mod ncols b))).

(** [np.tile(v, (n, 1))]: [n] copies of the row [v]. *)
Definition np_tile (v : list R) (n : nat) : ndarray R :=
  mk_ndarray n (length v) (fun _ j => nth j v 0).

(** [np.round]: to the nearest integer, ties to the even one.  The result is
    a float holding an integer; it is represented by that integer. *)
Definition np_round (x : R) : Z :=
  let f := Zfloor x in
  let d := x - IZR f in
  if decide (d < 1 / 2) then f
  else if decide (1 / 2 < d) then (f + 1)%Z
  else if Z.even f then f else (f + 1)%Z.

(** ** Scalars and arrays under one ufunc interface

    Python's [sum] starts from the integer 0 and the time argument of
    [polarisation] may be a number or an array, so a value is either. *)

Class Elementwise (T A : Type) := {
  ew_map : (T -> T) -> A -> A;
  ew_zip : (T -> T -> T) -> A -> A -> result A
}.

Inductive pyval (T A : Type) : Type :=
  | Num (x : T)
  | Arr (a : A).
Arguments Num {T A} x.
Arguments Arr {T A} a.

Definition ufunc1 {T A} `{Elementwise T A} (f : T -> T) (v : pyval T A)
  : pyval T A :=
  match v with
  | Num x => Num (f x)
  | Arr a => Arr (ew_map f a)
  end.

Definition ufunc2 {T A} `{Elementwise T A} (f : T -> T -> T)
  (u v : pyval T A) : result (pyval T A) :=
  match u, v with
  | Num x, Num y => Ok (Num (f x y))
  | Num x, Arr b => Ok (Arr (ew_map (f x) b))
  | Arr a, Num y => Ok (Arr (ew_map (fun x => f x y) a))
  | Arr a, Arr b => Arr <$> ew_zip f a b
  end.

(** One-dimensional real arrays. *)
Definition vec_zip (f : R -> R -> R) (u v : list R) : result (list R) :=
  if (length u =? length v)%nat then Ok (zip_with f u v)
  else match u, v with
       | [x], _ => Ok (map (f x) v)
       | _, [y] => Ok (map (fun x => f x y) u)
       | _, _ => Raise ValueError
       end.

#[global] Instance vec_elementwise : Elementwise R (list R) :=
  {| ew_map := fun f v => map f v; ew_zip := vec_zip |}.

#[global] Instance nd_elementwise : Elementwise complex (ndarray complex) :=
  {| ew_map := fun f a => nd_map f a; ew_zip := fun f a b => nd_zip f a b |}.

(** Python's [sum(terms)]: left to right, starting from [0]. *)
Fixpoint py_sum_from {T A} `{Elementwise T A} (add : T -> T -> T)
  (acc : pyval T A) (terms : list (result (pyval T A))) : result (pyval T A) :=
  match terms with
  | [] => Ok acc
  | t :: rest =>
      v ← t; acc' ← ufunc2 add acc v; py_sum_from add acc' rest
  end.

Definition py_sum {T A} `{Elementwise T A} (add : T -> T -> T) (zero : T)
  (terms : list (result (pyval T A))) : result (pyval T A) :=
  py_sum_from add (Num zero) terms.

(** A [for] loop whose body may raise, threading the loop state. *)
Fixpoint for_each {A St} (body : St -> A -> result St) (st : St) (l : list A)
  : result St :=
  match l with
  | [] => Ok st
  | x :: rest => st' ← body st x; for_each body st' rest
  end.

(** [for i in range(n) for j in range(n)], in iteration order. *)
Definition range2 (n : nat) : list (nat * nat) :=
  flat_map (fun i => map (fun j => (i, j)) (seq 0 n)) (seq 0 n).

(** ** The program *)

Definition adj (a : ndarray complex) : ndarray complex :=
  nd_T (nd_map c_conj a).

Definition tp (args : list (ndarray complex)) : result (ndarray complex) :=
  match args with
  | [] => Raise IndexError
  | first :: rest => Ok (fold_left np_kron rest first)
  end.

Definition FLUORINE_19_GYROMAGNETIC_RATIO : R := 251.662e6.
Definition MUON_GYROMAGNETIC_RATIO_OVER_2_PI : R := 136e6.

(** The source's [I]; renamed because [I] is the proof of [True]. *)
Definition I_2 : ndarray complex := np_eye 2.

Definition sigma_x : ndarray complex :=
  np_array [[RtoC 0; RtoC 1];
            [RtoC 1; RtoC 0]].

Definition sigma_z : ndarray complex :=
  np_array [[RtoC 1; RtoC 0];
            [RtoC 0; RtoC (-1)]].

Record Model : Type := mk_Model {
  energies : list R;
  M : ndarray complex;
  transition_amplitude_matrix : ndarray R;
  rounded_frequencies : list Z
}.

(** What [plot_energy_levels] computes before it draws. *)
Record energy_levels : Type := mk_energy_levels {
  plot_rounded_frequencies : list Z;
  frequency_levels : gset Z;
  transitions : gset (Z * Z)
}.

Definition DISTANCE : R := 2.34e-10 / 2.

(** The two arrows of [Model.print_details], and what a bare [print()]
    writes.  Standard output is the list of the strings printed. *)
Definition up_arrow : string := "↑"%string.
Definition down_arrow : string := "↓"%string.
Definition newline : string := String (Ascii.ascii_of_nat 10) EmptyString.

(** [range(n - 1, -1, -1)] *)
Definition range_down (n : Z) : list Z :=
  map Z.of_nat (rev (seq 0 (Z.to_nat n))).

Section Program.
(** [scipy.constants.hbar] and [scipy.constants.mu_0], and
    [numpy.linalg.eigh], are taken as given. *)
Variables hbar mu_0 : R.
Variable eigh : ndarray complex -> result (list R * ndarray complex).

(** The source's [S], a 3x2x2 array read as three matrices; renamed
    because [S] is the successor of [nat]. *)
Definition S_spin : list (ndarray complex) :=
  map (nd_map (c_mul (RtoC (hbar / 2))))
    [ np_array [[RtoC 0; RtoC 1];
                [RtoC 1; RtoC 0]];
      np_array [[RtoC 0; c_sub (RtoC 0) j1];
                [j1; RtoC 0]];
      np_array [[RtoC 1; RtoC 0];
                [RtoC 0; RtoC (-1)]] ].

(** [tp(op, *[I]*(particle_count-1))]; a list times a negative number is
    empty. *)
Definition first_particle (op : ndarray complex) (particle_count : Z)
  : result (ndarray complex) :=
  tp (op :: repeat I_2 (Z.to_nat (particle_count - 1))).

(** [Model.__init__] *)
Definition Model_init (H : ndarray complex) (particle_count : Z)
  : result Model :=
  '(energies, M) ← eigh H;
  tx ← first_particle sigma_x particle_count;
  mx ← matmul (adj M) tx ≫= (fun p => matmul p M);
  let ax := nd_map (Rmult 2) (nd_map (fun x => x ^ 2) (nd_map c_abs mx)) in
  tz ← first_particle sigma_z particle_count;
  mz ← matmul (adj M) tz ≫= (fun p => matmul p M);
  let az := nd_map (fun x => x ^ 2) (nd_map c_abs mz) in
  s ← nd_zip Rplus ax az;
  Ok (mk_Model energies M
        (nd_map (fun x => x / powerRZ 2 particle_count)
           (nd_map (fun x => x / 3) s))
        (map (fun e => np_round (e / hbar)) energies)).

(** [int(np.log2(len(self.energies)))] in [Model.print_details]:
    [np.log2(0)] is minus infinity, which [int] refuses. *)
Definition print_details_particle_count (self : Model) : result Z :=
  let N := length (energies self) in
  if (N =? 0)%nat then Raise OverflowError
  else Ok (Z.log2 (Z.of_nat N)).

(** The arrows printed for basis state [i]: one per particle, from the
    highest bit down, [up_arrow] where [i & (1 << j) == 0]. *)
Definition arrows (particle_count : Z) (i : nat) : list string :=
  map (fun j => if (Z.land (Z.of_nat i) (Z.shiftl 1 j) =? 0)%Z
                then up_arrow else down_arrow)
      (range_down particle_count).

(** The first line [Model.print_details] prints. *)
Definition print_details_header (self : Model) : result (list string) :=
  let N := length (energies self) in
  particle_count ← print_details_particle_count self;
  Ok (flat_map (fun i => arrows particle_count i ++ ["|"%string]) (seq 0 N)
      ++ [newline]).

Definition frequency_matrix (self : Model) : result (ndarray R) :=
  let N := length (energies self) in
  d ← nd_zip Rminus (nd_T (np_tile (energies self) N))
                    (np_tile (energies self) N);
  Ok (nd_map (fun x => x / hbar) (nd_map Rabs d)).

(** [Model.polarisation] *)
Definition polarisation (self : Model) (ts : pyval R (list R))
  : result (pyval R (list R)) :=
  let N := length (energies self) in
  frequency_matrix ← frequency_matrix self;
  py_sum Rplus 0
    (map (fun '(i, j) =>
            a ← nd_get (transition_amplitude_matrix self) i j;
            f ← nd_get frequency_matrix i j;
            Ok (ufunc1 (Rmult a) (ufunc1 cos (ufunc1 (Rmult f) ts))))
         (range2 N)).

(** The loop body of [Model.plot_cosine_amplitudes]:
    [d[f.round()] = d.get(f.round(), 0) + A[i, j]], the right-hand side
    first. *)
Definition add_cosine_amplitude (self : Model) (frequency_matrix : ndarray R)
  (cos_amplitudes : gmap Z R) (ij : nat * nat) : result (gmap Z R) :=
  f ← nd_get frequency_matrix ij.1 ij.2;
  a ← nd_get (transition_amplitude_matrix self) ij.1 ij.2;
  f' ← nd_get frequency_matrix ij.1 ij.2;
  Ok (<[np_round f' := default 0 (cos_amplitudes !! np_round f) + a]>
        cos_amplitudes).

(** [Model.plot_cosine_amplitudes], up to the drawing calls: the dictionary
    from rounded frequency to accumulated amplitude. *)
Definition plot_cosine_amplitudes (self : Model) : result (gmap Z R) :=
  let N := length (energies self) in
  frequency_matrix ← frequency_matrix self;
  for_each (add_cosine_amplitude self frequency_matrix) ∅ (range2 N).

(** The loop body of [Model.plot_energy_levels]. *)
Definition add_transition (self : Model) (rounded_frequencies : list Z)
  (transitions : gset (Z * Z)) (ij : nat * nat) : result (gset (Z * Z)) :=
  x ← nd_get (transition_amplitude_matrix self) ij.1 ij.2;
  if decide (1e-8 < x) then
    a ← vec_get rounded_frequencies ij.1;
    b ← vec_get rounded_frequencies ij.2;
    let ab := if decide (a > b)%Z then (b, a) else (a, b) in
    if decide (ab.1 ≠ ab.2) then Ok (transitions ∪ {[ ab ]})
    else Ok transitions
  else Ok transitions.

(** [Model.plot_energy_levels], up to the drawing calls. *)
Definition plot_energy_levels (self : Model) : result energy_levels :=
  let N := length (energies self) in
  let rounded_frequencies :=
    map (fun e => np_round (e / hbar)) (energies self) in
  let frequency_levels : gset Z := list_to_set rounded_frequencies in
  transitions ← for_each (add_transition self rounded_frequencies) ∅
                  (range2 N);
  Ok (mk_energy_levels rounded_frequencies frequency_levels transitions).

(** Module level. *)
Definition C : R :=
  mu_0 * FLUORINE_19_GYROMAGNETIC_RATIO * MUON_GYROMAGNETIC_RATIO_OVER_2_PI
  / (2 * DISTANCE ^ 3).

Definition C2 : R :=
  mu_0 * FLUORINE_19_GYROMAGNETIC_RATIO * FLUORINE_19_GYROMAGNETIC_RATIO
  / (4 * PI * DISTANCE ^ 3).

(** [S[i]] *)
Definition S_at (i : nat) : result (ndarray complex) := vec_get S_spin i.

Definition H : result (pyval complex (ndarray complex)) :=
  s1 ← py_sum c_add (RtoC 0)
         (map (fun i => a ← S_at i; b ← S_at i; Arr <$> tp [a; b; I_2])
              (seq 0 3));
  t1 ← (a ← S_at 2; b ← S_at 2; Arr <$> tp [a; b; I_2])
         ≫= ufunc2 c_mul (Num (RtoC 3));
  d1 ← ufunc2 c_sub s1 t1;
  s2 ← py_sum c_add (RtoC 0)
         (map (fun i => a ← S_at i; b ← S_at i; Arr <$> tp [a; I_2; b])
              (seq 0 3));
  a1 ← ufunc2 c_add d1 s2;
  t2 ← (a ← S_at 2; b ← S_at 2; Arr <$> tp [a; I_2; b])
         ≫= ufunc2 c_mul (Num (RtoC 3));
  d2 ← ufunc2 c_sub a1 t2;
  ufunc2 c_mul (Num (RtoC C)) d2.

(** [m = Model(H, 3)]; [eigh] refuses a scalar. *)
Definition m : result Model :=
  h ← H;
  match h with
  | Arr a => Model_init a 3
  | Num _ => Raise LinAlgError
  end.
End Program.

(** ** The eigensolver's interface *)

(** What the program relies on from [numpy.linalg.eigh]: it refuses a matrix
    that is not square, and on an [N] by [N] matrix it returns [N]
    eigenvalues and an [N] by [N] matrix of eigenvectors. *)
Record eigh_contract
  (eigh : ndarray complex -> result (list R * ndarray complex)) : Prop := {
  eigh_not_square : forall H,
    nrows H <> ncols H -> eigh H = Raise LinAlgError;
  eigh_square : forall H,
    nrows H = ncols H ->
    exists w Mv, eigh H = Ok (w, Mv) /\ length w = nrows H /\
                 nrows Mv = nrows H /\ ncols Mv = nrows H
}.

(** ** What the specification says, in its own words *)

(** Conjugate-transpose equality, [H = H†]. *)
Definition Hermitian (a : ndarray complex) : Prop := nd_eq (adj a) a.

(** The entry [(M† · T · M)[i][j]] as the double sum over the basis. *)
Definition eigenbasis_entry (Mv T : ndarray complex) (i j : nat) : complex :=
  c_sum (nrows Mv) (fun k =>
    c_sum (nrows Mv) (fun l =>
      c_mul (c_mul (c_conj (item Mv k i)) (item T k l)) (item Mv l j))).

(** [tensorProduct(op, I, ..., I)]: the operator on the first particle,
    followed by [n - 1] identities. *)
Definition tensorProduct_first (op : ndarray complex) (n : Z)
  : ndarray complex :=
  fold_left np_kron (repeat I_2 (Z.to_nat (n - 1))) op.


(** [ω[i][j] = |energies[i] − energies[j]| / ħ] *)
Definition omega (hbar : R) (self : Model) (i j : nat) : R :=
  Rabs (nth i (energies self) 0 - nth j (energies self) 0) / hbar.

(** [D(t) = Σ_i Σ_j A[i][j] · cos(ω[i][j] · t)] *)
Definition spec_polarisation (hbar : R) (self : Model) (t : R) : R :=
  let N := length (energies self) in
  Rsum N (fun i => Rsum N (fun j =>
    item (transition_amplitude_matrix self) i j * cos (omega hbar self i j * t))).

(** The sum of all entries of a real matrix. *)
Definition sum_entries (a : ndarray R) : R :=
  Rsum (nrows a) (fun i => Rsum (ncols a) (fun j => item a i j)).

(** ** Concrete inputs *)

(** An eigensolver that is exact on matrices whose lower triangle is already
    diagonal with an ascending diagonal: the diagonal and the identity. *)
Definition eigh_diagonal (H : ndarray complex)
  : result (list R * ndarray complex) :=
  if (nrows H =? ncols H)%nat
  then Ok (map (fun i => (item H i i).1) (seq 0 (nrows H)), np_eye (nrows H))
  else Raise LinAlgError.

Definition H_diagonal : ndarray complex :=
  np_array [[RtoC (-1); RtoC 0];
            [RtoC 0; RtoC 1]].

(** Square, and not equal to its conjugate transpose. *)
Definition H_not_hermitian : ndarray complex :=
  np_array [[RtoC 0; RtoC 1];
            [RtoC 0; RtoC 0]].

(** One row, two columns. *)
Definition H_row : ndarray complex :=
  np_array [[RtoC 0; RtoC 1]].

(** Three energies: a length that is not a power of two. *)
Definition three_levels : Model :=
  mk_Model [0; 0; 0] (np_eye 3) (nd_map fst (np_eye 3)) [0%Z; 0%Z; 0%Z].

(** ** Auxiliary definitions for the proofs *)

(** The amplitude matrix has one row and one column per energy. *)
Definition well_shaped (self : Model) : Prop :=
  nrows (transition_amplitude_matrix self) = length (energies self) /\
  ncols (transition_amplitude_matrix self) = length (energies self).

(** The entry that [adj(M) @ T @ M] holds at [(i, j)], as the two matrix
    products compute it. *)
Definition rotated (Mv T : ndarray complex) (i j : nat) : complex :=
  c_sum (ncols T) (fun l =>
    c_mul (c_sum (nrows Mv) (fun k => c_mul (c_conj (item Mv k i)) (item T k l)))
          (item Mv l j)).

(** The amplitude the constructor stores at [(i, j)]. *)
Definition stored_amplitude (Mv : ndarray complex) (n : Z) (i j : nat) : R :=
  (2 * c_abs (rotated Mv (tensorProduct_first sigma_x n) i j) ^ 2
   + c_abs (rotated Mv (tensorProduct_first sigma_z n) i j) ^ 2)
  / 3 / powerRZ 2 n.

(** A list of reals summed from the right. *)
Definition Lsum (l : list R) : R := fold_right Rplus 0 l.

(** One term of the sum, [A[i][j] * cos(ω[i][j] * t)]. *)
Definition term (hbar : R) (self : Model) (ij : nat * nat) (t : R) : R :=
  item (transition_amplitude_matrix self) ij.1 ij.2
  * cos (omega hbar self ij.1 ij.2 * t).

(** A pair of rounded frequencies put in ascending order, as the loop body
    does before adding it. *)
Definition canonical (a b : Z) : Z * Z :=
  if decide (a > b)%Z then (b, a) else (a, b).

(** The pair that the index pair [(i, j)] contributes to the set, if any. *)
Definition contributes (self : Model) (rf : list Z) (ij : nat * nat)
  (ab : Z * Z) : Prop :=
  1e-8 < item (transition_amplitude_matrix self) ij.1 ij.2 /\
  ab = canonical (nth ij.1 rf 0%Z) (nth ij.2 rf 0%Z) /\ ab.1 <> ab.2.

(** A value that is a Hermitian [d] by [d] matrix. *)
Definition herm (d : nat) (v : pyval complex (ndarray complex)) : Prop :=
  exists a, v = Arr a /\ nrows a = d /\ Hermitian a.

(** The operations the builder uses commute with conjugation. *)
Definition conj_compatible (f : complex -> complex -> complex) : Prop :=
  forall x y, c_conj (f x y) = f (c_conj x) (c_conj y).

(** The model with every energy raised by [c]. *)
Definition shift_energies (c : R) (self : Model) : Model :=
  mk_Model (map (Rplus c) (energies self)) (M self)
           (transition_amplitude_matrix self) (rounded_frequencies self).

(** The solver [eigh_diagonal] with every eigenvector negated: eigenvectors
    are only determined up to a phase. *)
Definition eigh_diagonal_flipped (H : ndarray complex)
  : result (list R * ndarray complex) :=
  if (nrows H =? ncols H)%nat
  then Ok (map (fun i => (item H i i).1) (seq 0 (nrows H)),
           nd_map (c_mul (RtoC (-1))) (np_eye (nrows H)))
  else Raise LinAlgError.

(** The sum of the values of a dictionary. *)
Definition dict_total (d : gmap Z R) : R :=
  map_fold (fun _ v acc => v + acc) 0 d.

(** The sum of a real matrix's diagonal. *)
Definition trace_entries (a : ndarray R) : R :=
  Rsum (nrows a) (fun i => item a i i).

(** The dictionary key of the index pair [ij]: its rounded frequency. *)
Definition bucket_of (hbar : R) (self : Model) (ij : nat * nat) : Z :=
  np_round (omega hbar self ij.1 ij.2).

(** What the index pair [ij] adds to the dictionary entry [k]. *)
Definition share (hbar : R) (self : Model) (k : Z) (ij : nat * nat) : R :=
  if decide (bucket_of hbar self ij = k)
  then item (transition_amplitude_matrix self) ij.1 ij.2 else 0.

(** Square matrices as bare entry functions, for the algebra behind the
    normalisation: product, conjugate transpose, trace, identity, squared
    Frobenius norm, and equality inside the [N] by [N] block. *)
Definition mm (N : nat) (f g : nat -> nat -> complex) : nat -> nat -> complex :=
  fun i j => c_sum N (fun k => c_mul (f i k) (g k j)).

Definition adjf (f : nat -> nat -> complex) : nat -> nat -> complex :=
  fun i j => c_conj (f j i).

Definition tr (N : nat) (f : nat -> nat -> complex) : complex :=
  c_sum N (fun i => f i i).

Definition idf : nat -> nat -> complex :=
  fun i j => if (i =? j)%nat then RtoC 1 else RtoC 0.

Definition frob (r c : nat) (f : nat -> nat -> complex) : R :=
  Rsum r (fun i => Rsum c (fun j => c_abs (f i j) ^ 2)).

Definition frob_nd (a : ndarray complex) : R :=
  frob (nrows a) (ncols a) (item a).

Definition eqN (N : nat) (f g : nat -> nat -> complex) : Prop :=
  forall i j, (i < N)%nat -> (j < N)%nat -> f i j = g i j.

(** [M @ adj(M)] is the identity: the rows of [M] are orthonormal. *)
Definition unitary (Mv : ndarray complex) : Prop :=
  exists p, matmul Mv (adj Mv) = Ok p /\ nd_eq p (np_eye (nrows Mv)).

(** The sum over a dictionary of each value times a weight of its key. *)
Definition dict_weighted (phi : Z -> R) (d : gmap Z R) : R :=
  map_fold (fun k v acc => v * phi k + acc) 0 d.

(** Reduce the binds of the error monad and nothing else. *)
Ltac step := cbn [mbind result_bind mret result_ret fmap result_fmap].

(** Equality of two complex numbers, by components. *)
Ltac c_ring := apply injective_projections; simpl; ring.

(** ** Complex arithmetic *)

Lemma c_conj_add z w : c_conj (c_add z w) = c_add (c_conj z) (c_conj w).
Proof. c_ring. Qed.

Lemma c_conj_sub z w : c_conj (c_sub z w) = c_sub (c_conj z) (c_conj w).
Proof. c_ring. Qed.

Lemma c_conj_mul z w : c_conj (c_mul z w) = c_mul (c_conj z) (c_conj w).
Proof. c_ring. Qed.

Lemma c_conj_conj z : c_conj (c_conj z) = z.
Proof. c_ring. Qed.

Lemma c_conj_RtoC x : c_conj (RtoC x) = RtoC x.
Proof. c_ring. Qed.

Lemma c_abs_conj z : c_abs (c_conj z) = c_abs z.
Proof. unfold c_abs, c_conj; simpl. f_equal; ring. Qed.

(** ** Finite sums *)

Lemma c_sum_ext n f g :
  (forall k, (k < n)%nat -> f k = g k) -> c_sum n f = c_sum n g.
Proof.
  induction n as [|n IH]; intros Hfg; simpl; [reflexivity|].
  rewrite IH by (intros; apply Hfg; lia).
  rewrite Hfg by lia. reflexivity.
Qed.

Lemma c_sum_conj n f : c_conj (c_sum n f) = c_sum n (fun k => c_conj (f k)).
Proof.
  induction n as [|n IH]; simpl; [apply c_conj_RtoC|].
  rewrite c_conj_add, IH. reflexivity.
Qed.

Lemma c_sum_add n f g :
  c_sum n (fun k => c_add (f k) (g k)) = c_add (c_sum n f) (c_sum n g).
Proof.
  induction n as [|n IH]; simpl; [c_ring|].
  rewrite IH. c_ring.
Qed.

Lemma c_sum_mul_r n f z :
  c_mul (c_sum n f) z = c_sum n (fun k => c_mul (f k) z).
Proof.
  induction n as [|n IH]; simpl; [c_ring|].
  rewrite <- IH. c_ring.
Qed.

Lemma c_sum_zero n : c_sum n (fun _ => RtoC 0) = RtoC 0.
Proof. induction n as [|n IH]; simpl; [reflexivity|]. rewrite IH. c_ring. Qed.

(** Exchanging the order of a double sum. *)
Lemma c_sum_swap n p (f : nat -> nat -> complex) :
  c_sum n (fun k => c_sum p (fun l => f k l))
  = c_sum p (fun l => c_sum n (fun k => f k l)).
Proof.
  induction n as [|n IH]; simpl.
  - symmetry. apply c_sum_zero.
  - rewrite IH. symmetry. apply c_sum_add.
Qed.

Lemma Rsum_ext n f g :
  (forall k, (k < n)%nat -> f k = g k) -> Rsum n f = Rsum n g.
Proof.
  induction n as [|n IH]; intros Hfg; simpl; [reflexivity|].
  rewrite IH by (intros; apply Hfg; lia).
  rewrite Hfg by lia. reflexivity.
Qed.

(** ** Indexing inside the shape *)

Lemma nd_get_Ok {T} (a : ndarray T) i j :
  (i < nrows a)%nat -> (j < ncols a)%nat -> nd_get a i j = Ok (item a i j).
Proof.
  intros Hi Hj. unfold nd_get.
  destruct (Nat.ltb_spec i (nrows a)); [|lia].
  destruct (Nat.ltb_spec j (ncols a)); [|lia]. reflexivity.
Qed.

Lemma vec_get_Ok {T} (v : list T) i d :
  (i < length v)%nat -> vec_get v i = Ok (nth i v d).
Proof.
  intros Hi. unfold vec_get.
  destruct (nth_lookup_or_length v i d) as [-> | Hge]; [reflexivity | lia].
Qed.

(** ** Shapes *)

Lemma kron_repeat_shape k op :
  nrows (fold_left np_kron (repeat I_2 k) op) = (nrows op * 2 ^ k)%nat /\
  ncols (fold_left np_kron (repeat I_2 k) op) = (ncols op * 2 ^ k)%nat.
Proof.
  revert op. induction k as [|k IH]; intros op; simpl.
  - lia.
  - destruct (IH (np_kron op I_2)) as [Hr Hc]. rewrite Hr, Hc. simpl. lia.
Qed.

Lemma tensorProduct_first_nrows op n :
  nrows (tensorProduct_first op n) = (nrows op * 2 ^ Z.to_nat (n - 1))%nat.
Proof. apply kron_repeat_shape. Qed.

Lemma tensorProduct_first_ncols op n :
  ncols (tensorProduct_first op n) = (ncols op * 2 ^ Z.to_nat (n - 1))%nat.
Proof. apply kron_repeat_shape. Qed.

(** For a positive particle count the operator has dimension [2^n]. *)
Lemma two_pow_particles n :
  (1 <= n)%Z -> (2 * 2 ^ Z.to_nat (n - 1))%nat = (2 ^ Z.to_nat n)%nat.
Proof.
  intros Hn. replace (Z.to_nat n) with (S (Z.to_nat (n - 1))) by lia.
  simpl. lia.
Qed.

Lemma bdim_same a : bdim a a = Some a.
Proof. unfold bdim. rewrite Nat.eqb_refl. reflexivity. Qed.

Lemma bidx_in_range d i : (i < d)%nat -> bidx d i = i.
Proof.
  intros Hi. unfold bidx. destruct (Nat.eqb_spec d 1); [lia | reflexivity].
Qed.

(** Same-shape operands never raise, and the result is entrywise. *)
Lemma nd_zip_same_shape {T U V} (f : T -> U -> V) a b :
  nrows a = nrows b -> ncols a = ncols b ->
  exists c, nd_zip f a b = Ok c /\ nrows c = nrows a /\ ncols c = ncols a /\
    forall i j, (i < nrows a)%nat -> (j < ncols a)%nat ->
      item c i j = f (item a i j) (item b i j).
Proof.
  intros Hr Hc. unfold nd_zip. rewrite <- Hr, <- Hc, !bdim_same.
  eexists; split; [reflexivity|]. simpl. repeat split.
  intros i j Hi Hj. rewrite !bidx_in_range by assumption. reflexivity.
Qed.

Section Construction.
Variable hbar : R.
Variable eigh : ndarray complex -> result (list R * ndarray complex).

Lemma first_particle_Ok op n :
  first_particle op n = Ok (tensorProduct_first op n).
Proof. reflexivity. Qed.

Lemma rotate_Ok Mv T :
  nrows Mv = nrows T -> ncols T = nrows Mv ->
  exists r, matmul (adj Mv) T ≫= (fun p => matmul p Mv) = Ok r /\
    nrows r = ncols Mv /\ ncols r = ncols Mv /\
    forall i j, item r i j = rotated Mv T i j.
Proof.
  intros Hr Hc. unfold matmul. simpl.
  destruct (Nat.eqb_spec (nrows Mv) (nrows T)) as [_|]; [|contradiction].
  simpl.
  destruct (Nat.eqb_spec (ncols T) (nrows Mv)) as [_|]; [|contradiction].
  eexists; split; [reflexivity|]. simpl. repeat split.
Qed.

Lemma rotate_Raise Mv T :
  nrows Mv <> nrows T \/ ncols T <> nrows Mv ->
  matmul (adj Mv) T ≫= (fun p => matmul p Mv) = Raise ValueError.
Proof.
  intros Hne. unfold matmul. simpl.
  destruct (Nat.eqb_spec (nrows Mv) (nrows T)) as [Heq1|]; [|reflexivity].
  simpl.
  destruct (Nat.eqb_spec (ncols T) (nrows Mv)) as [Heq|]; [|reflexivity].
  destruct Hne; contradiction.
Qed.

Lemma Model_init_eigh_Ok H n w Mv :
  eigh H = Ok (w, Mv) ->
  nrows Mv = (2 * 2 ^ Z.to_nat (n - 1))%nat ->
  exists m, Model_init hbar eigh H n = Ok m /\
    energies m = w /\ M m = Mv /\
    rounded_frequencies m = map (fun e => np_round (e / hbar)) w /\
    nrows (transition_amplitude_matrix m) = ncols Mv /\
    ncols (transition_amplitude_matrix m) = ncols Mv /\
    forall i j, (i < ncols Mv)%nat -> (j < ncols Mv)%nat ->
      item (transition_amplitude_matrix m) i j = stored_amplitude Mv n i j.
Proof.
  intros He Hd. unfold Model_init. rewrite He. step.
  rewrite !first_particle_Ok. step.
  destruct (rotate_Ok Mv (tensorProduct_first sigma_x n))
    as (mx & -> & Hxr & Hxc & Hx).
  { rewrite tensorProduct_first_nrows. exact Hd. }
  { rewrite tensorProduct_first_ncols. symmetry. exact Hd. }
  step.
  destruct (rotate_Ok Mv (tensorProduct_first sigma_z n))
    as (mz & -> & Hzr & Hzc & Hz).
  { rewrite tensorProduct_first_nrows. exact Hd. }
  { rewrite tensorProduct_first_ncols. symmetry. exact Hd. }
  step.
  match goal with |- context [nd_zip Rplus ?a ?b] =>
    destruct (nd_zip_same_shape Rplus a b) as (s & -> & Hsr & Hsc & Hs)
  end.
  { simpl. congruence. }
  { simpl. congruence. }
  simpl in Hsr, Hsc, Hs. step.
  eexists; split; [reflexivity|]. simpl.
  repeat split; try congruence.
  intros i j Hi Hj. rewrite Hs by congruence.
  unfold stored_amplitude. rewrite Hx, Hz. reflexivity.
Qed.

Lemma Model_init_eigh_Raise H n w Mv :
  eigh H = Ok (w, Mv) ->
  nrows Mv <> (2 * 2 ^ Z.to_nat (n - 1))%nat ->
  Model_init hbar eigh H n = Raise ValueError.
Proof.
  intros He Hd. unfold Model_init. rewrite He. step.
  rewrite !first_particle_Ok. step.
  rewrite (rotate_Raise Mv (tensorProduct_first sigma_x n)); [reflexivity|].
  left. rewrite tensorProduct_first_nrows. exact Hd.
Qed.

Lemma Model_init_Ok_inv H n m :
  Model_init hbar eigh H n = Ok m ->
  exists w Mv, eigh H = Ok (w, Mv) /\
    nrows Mv = (2 * 2 ^ Z.to_nat (n - 1))%nat /\
    energies m = w /\ M m = Mv /\
    rounded_frequencies m = map (fun e => np_round (e / hbar)) w /\
    nrows (transition_amplitude_matrix m) = ncols Mv /\
    ncols (transition_amplitude_matrix m) = ncols Mv /\
    forall i j, (i < ncols Mv)%nat -> (j < ncols Mv)%nat ->
      item (transition_amplitude_matrix m) i j = stored_amplitude Mv n i j.
Proof.
  intros Hm. destruct (eigh H) as [[w Mv]|e] eqn:He.
  - exists w, Mv. split; [reflexivity|].
    destruct (Nat.eq_dec (nrows Mv) (2 * 2 ^ Z.to_nat (n - 1))%nat) as [Hd|Hd].
    + split; [exact Hd|].
      destruct (Model_init_eigh_Ok H n w Mv He Hd) as (m' & Hm' & Hrest).
      rewrite Hm in Hm'. injection Hm' as <-. exact Hrest.
    + rewrite (Model_init_eigh_Raise H n w Mv He Hd) in Hm. discriminate.
  - unfold Model_init in Hm. rewrite He in Hm. discriminate.
Qed.
End Construction.

Lemma rotated_eigenbasis Mv T i j :
  ncols T = nrows Mv -> rotated Mv T i j = eigenbasis_entry Mv T i j.
Proof.
  intros Hc. unfold rotated, eigenbasis_entry. rewrite Hc.
  rewrite c_sum_swap. apply c_sum_ext; intros l _.
  apply c_sum_mul_r.
Qed.

Lemma powerRZ_2_pos n : 0 < powerRZ 2 n.
Proof. apply powerRZ_lt. lra. Qed.

Section Amplitudes.
Variable hbar : R.
Variable eigh : ndarray complex -> result (list R * ndarray complex).

End Amplitudes.


(** ** Hermitian matrices *)

Lemma Hermitian_square a : Hermitian a -> nrows a = ncols a.
Proof. intros (Hr & Hc & _). simpl in Hr, Hc. congruence. Qed.

Lemma Hermitian_entry a i j :
  Hermitian a -> (i < nrows a)%nat -> (j < nrows a)%nat ->
  c_conj (item a j i) = item a i j.
Proof.
  intros Ha Hi Hj. pose proof (Hermitian_square a Ha) as Hsq.
  destruct Ha as (_ & _ & He). simpl in He. apply He; lia.
Qed.

Lemma Hermitian_intro a :
  nrows a = ncols a ->
  (forall i j, (i < nrows a)%nat -> (j < nrows a)%nat ->
     c_conj (item a j i) = item a i j) ->
  Hermitian a.
Proof.
  intros Hsq He. unfold Hermitian, nd_eq. simpl. repeat split; try congruence.
  intros i j Hi Hj. apply He; lia.
Qed.

Lemma Hermitian_kron a b :
  Hermitian a -> Hermitian b -> Hermitian (np_kron a b).
Proof.
  intros Ha Hb.
  pose proof (Hermitian_square a Ha) as Hsa.
  pose proof (Hermitian_square b Hb) as Hsb.
  apply Hermitian_intro; simpl; [congruence|].
  intros i j Hi Hj. rewrite <- Hsb.
  assert (nrows b <> 0)%nat as Hnz by (intros Hz; rewrite Hz in Hi; lia).
  rewrite c_conj_mul.
  rewrite (Hermitian_entry a) by
    (try assumption; apply Nat.Div0.div_lt_upper_bound; lia).
  rewrite (Hermitian_entry b) by
    (try assumption; apply Nat.mod_upper_bound; assumption).
  reflexivity.
Qed.

Lemma lt_2_cases i : (i < 2)%nat -> i = O \/ i = 1%nat.
Proof. lia. Qed.

Lemma Hermitian_2x2 a :
  nrows a = 2%nat -> ncols a = 2%nat ->
  c_conj (item a 0 0) = item a 0 0 -> c_conj (item a 1 0) = item a 0 1 ->
  c_conj (item a 0 1) = item a 1 0 -> c_conj (item a 1 1) = item a 1 1 ->
  Hermitian a.
Proof.
  intros Hr Hc H00 H10 H01 H11. apply Hermitian_intro; [congruence|].
  rewrite Hr. intros i j Hi Hj.
  destruct (lt_2_cases i Hi) as [-> | ->];
    destruct (lt_2_cases j Hj) as [-> | ->]; assumption.
Qed.

Lemma Hermitian_I_2 : Hermitian I_2.
Proof. apply Hermitian_2x2; try reflexivity; c_ring. Qed.

Lemma Hermitian_sigma_x : Hermitian sigma_x.
Proof. apply Hermitian_2x2; try reflexivity; c_ring. Qed.

Lemma Hermitian_sigma_z : Hermitian sigma_z.
Proof. apply Hermitian_2x2; try reflexivity; c_ring. Qed.

Lemma Hermitian_kron_repeat k op :
  Hermitian op -> Hermitian (fold_left np_kron (repeat I_2 k) op).
Proof.
  revert op. induction k as [|k IH]; intros op Hop; simpl; [exact Hop|].
  apply IH, Hermitian_kron; [exact Hop | exact Hermitian_I_2].
Qed.

Lemma Hermitian_tensorProduct_first op n :
  Hermitian op -> Hermitian (tensorProduct_first op n).
Proof. apply Hermitian_kron_repeat. Qed.

(** Rotating a Hermitian operator into any basis leaves it Hermitian. *)
Lemma rotated_conj Mv T i j :
  Hermitian T -> nrows T = nrows Mv ->
  c_conj (rotated Mv T j i) = rotated Mv T i j.
Proof.
  intros HT Hd. pose proof (Hermitian_square T HT) as Hsq.
  rewrite !rotated_eigenbasis by congruence.
  unfold eigenbasis_entry.
  rewrite c_sum_conj, c_sum_swap.
  apply c_sum_ext; intros k Hk.
  rewrite c_sum_conj.
  apply c_sum_ext; intros l Hl.
  rewrite !c_conj_mul, c_conj_conj.
  rewrite (Hermitian_entry T l k HT) by lia.
  c_ring.
Qed.

Lemma rotated_abs_sym Mv T i j :
  Hermitian T -> nrows T = nrows Mv ->
  c_abs (rotated Mv T j i) = c_abs (rotated Mv T i j).
Proof.
  intros HT Hd. rewrite <- (rotated_conj Mv T i j HT Hd).
  symmetry. apply c_abs_conj.
Qed.

Section Symmetry.
Variable hbar : R.
Variable eigh : ndarray complex -> result (list R * ndarray complex).

(** C5: the amplitude matrix of a constructed model is a real square
    matrix with [A[i][j] = A[j][i]] and [A[i][j] >= 0] for all [i], [j].
    Nothing is asked of the Hamiltonian, so this covers the Hermitian
    ones. *)
Theorem transition_amplitude_matrix_symmetric_nonneg H n m :
  Model_init hbar eigh H n = Ok m ->
  nd_eq (nd_T (transition_amplitude_matrix m)) (transition_amplitude_matrix m)
  /\ forall i j,
      (i < nrows (transition_amplitude_matrix m))%nat ->
      (j < ncols (transition_amplitude_matrix m))%nat ->
      0 <= item (transition_amplitude_matrix m) i j.
Proof.
  intros Hm.
  destruct (Model_init_Ok_inv _ _ _ _ _ Hm)
    as (w & Mv & _ & Hd & _ & _ & _ & Hr & Hc & HA).
  assert (forall op, nrows op = 2%nat ->
            nrows (tensorProduct_first op n) = nrows Mv) as Hdim.
  { intros op Hop. rewrite tensorProduct_first_nrows, Hop. symmetry. exact Hd. }
  split.
  - unfold nd_eq. simpl. repeat split; try congruence.
    intros i j Hi Hj. rewrite !HA by congruence.
    unfold stored_amplitude.
    rewrite (rotated_abs_sym Mv (tensorProduct_first sigma_x n) i j)
      by (try apply Hermitian_tensorProduct_first, Hermitian_sigma_x;
          apply Hdim; reflexivity).
    rewrite (rotated_abs_sym Mv (tensorProduct_first sigma_z n) i j)
      by (try apply Hermitian_tensorProduct_first, Hermitian_sigma_z;
          apply Hdim; reflexivity).
    reflexivity.
  - intros i j Hi Hj. rewrite HA by congruence.
    unfold stored_amplitude.
    pose proof (powerRZ_2_pos n) as Hp.
    pose proof (pow2_ge_0 (c_abs (rotated Mv (tensorProduct_first sigma_x n) i j))).
    pose proof (pow2_ge_0 (c_abs (rotated Mv (tensorProduct_first sigma_z n) i j))).
    apply Rmult_le_pos; [|left; apply Rinv_0_lt_compat; exact Hp].
    apply Rmult_le_pos; lra.
Qed.
End Symmetry.

Lemma transition_amplitude_matrix_symmetric_nonneg_witness :
  exists m, Model_init 1 eigh_diagonal H_diagonal 1 = Ok m /\
    nd_eq (nd_T (transition_amplitude_matrix m)) (transition_amplitude_matrix m)
    /\ forall i j, (i < 2)%nat -> (j < 2)%nat ->
         0 <= item (transition_amplitude_matrix m) i j.
Proof.
  eexists. split; [reflexivity|].
  apply (transition_amplitude_matrix_symmetric_nonneg 1 eigh_diagonal
           H_diagonal 1).
  reflexivity.
Defined.

(** ** Python's [sum] against the mathematical sums *)

Lemma Lsum_app l1 l2 : Lsum (l1 ++ l2) = Lsum l1 + Lsum l2.
Proof. induction l1 as [|x l1 IH]; simpl; [ring|]. rewrite IH. ring. Qed.

Lemma Lsum_seq n (f : nat -> R) : Lsum (map f (seq 0 n)) = Rsum n f.
Proof.
  induction n as [|n IH]; [reflexivity|].
  rewrite seq_S, map_app, Lsum_app, IH. simpl. ring.
Qed.

Lemma Lsum_flat_map {A B} (g : B -> R) (h : A -> list B) l :
  Lsum (map g (flat_map h l)) = Lsum (map (fun a => Lsum (map g (h a))) l).
Proof.
  induction l as [|a l IH]; [reflexivity|].
  simpl. rewrite map_app, Lsum_app, IH. reflexivity.
Qed.

Lemma Lsum_range2 n (g : nat * nat -> R) :
  Lsum (map g (range2 n)) = Rsum n (fun i => Rsum n (fun j => g (i, j))).
Proof.
  unfold range2. rewrite Lsum_flat_map, Lsum_seq.
  apply Rsum_ext; intros i _. rewrite map_map. apply Lsum_seq.
Qed.

Lemma In_range2 n i j : In (i, j) (range2 n) -> (i < n)%nat /\ (j < n)%nat.
Proof.
  unfold range2. rewrite in_flat_map. intros (i' & Hi & Hj).
  apply in_map_iff in Hj as (j' & [= <- <-] & Hj).
  apply in_seq in Hi, Hj. lia.
Qed.

Lemma range2_nonempty n : n <> O -> range2 n <> [].
Proof. destruct n; [congruence|]. discriminate. Qed.

Lemma py_sum_from_Num {X} (g : X -> R) l acc :
  py_sum_from Rplus (Num acc) (map (fun x => Ok (Num (g x))) l)
  = Ok (Num (acc + Lsum (map g l))).
Proof.
  revert acc. induction l as [|x l IH]; intros acc; simpl.
  - do 2 f_equal. ring.
  - rewrite IH. do 2 f_equal. ring.
Qed.

Lemma zip_with_map_same {X} (F G : X -> R) ts :
  zip_with Rplus (map F ts) (map G ts) = map (fun t => F t + G t) ts.
Proof. induction ts as [|t ts IH]; simpl; [reflexivity|]. rewrite IH. reflexivity. Qed.

Lemma vec_zip_map_same {X} (F G : X -> R) (ts : list X) :
  vec_zip Rplus (map F ts) (map G ts) = Ok (map (fun t => F t + G t) ts).
Proof.
  unfold vec_zip. rewrite !length_map, Nat.eqb_refl, zip_with_map_same.
  reflexivity.
Qed.

Lemma py_sum_from_Arr {X} (g : X -> R -> R) (ts : list R) l F :
  py_sum_from Rplus (Arr (map F ts)) (map (fun x => Ok (Arr (map (g x) ts))) l)
  = Ok (Arr (map (fun t => F t + Lsum (map (fun x => g x t) l)) ts)).
Proof.
  revert F. induction l as [|x l IH]; intros F; simpl.
  - do 2 f_equal. apply map_ext; intros t. ring.
  - rewrite vec_zip_map_same. simpl. rewrite IH.
    do 2 f_equal. apply map_ext; intros t. ring.
Qed.

Lemma py_sum_Num {X} (g : X -> R) l :
  py_sum Rplus 0 (map (fun x => Ok (Num (g x))) l) = Ok (Num (Lsum (map g l))).
Proof. unfold py_sum. rewrite py_sum_from_Num. do 2 f_equal. ring. Qed.

Lemma py_sum_Arr {X} (g : X -> R -> R) (ts : list R) l :
  l <> [] ->
  py_sum Rplus 0 (map (fun x => Ok (Arr (map (g x) ts))) l)
  = Ok (Arr (map (fun t => Lsum (map (fun x => g x t) l)) ts)).
Proof.
  destruct l as [|x l]; [congruence|]. intros _.
  unfold py_sum. simpl. rewrite map_map.
  rewrite (py_sum_from_Arr g ts l (fun t => 0 + g x t)).
  do 2 f_equal. apply map_ext; intros t. ring.
Qed.

Lemma eigh_diagonal_contract : eigh_contract eigh_diagonal.
Proof.
  split; intros H Hs; unfold eigh_diagonal.
  - destruct (Nat.eqb_spec (nrows H) (ncols H)); [contradiction | reflexivity].
  - destruct (Nat.eqb_spec (nrows H) (ncols H)); [|contradiction].
    eexists _, _. split; [reflexivity|]. simpl.
    rewrite length_map, length_seq. auto.
Qed.

Lemma eigh_Ok_shape eigh H w Mv :
  eigh_contract eigh -> eigh H = Ok (w, Mv) ->
  nrows H = ncols H /\ length w = nrows H /\
  nrows Mv = nrows H /\ ncols Mv = nrows H.
Proof.
  intros [Hns Hsq] He.
  destruct (Nat.eq_dec (nrows H) (ncols H)) as [Hs|Hs].
  - destruct (Hsq H Hs) as (w' & Mv' & He' & Hshape).
    rewrite He in He'. injection He' as <- <-. auto.
  - rewrite (Hns H Hs) in He. discriminate.
Qed.

Section Polarisation.
Variable hbar : R.
Variable eigh : ndarray complex -> result (list R * ndarray complex).
Hypothesis eigh_ok : eigh_contract eigh.

Lemma Model_init_shape H n m :
  Model_init hbar eigh H n = Ok m ->
  well_shaped m /\
  length (energies m) = nrows H /\
  nrows H = (2 * 2 ^ Z.to_nat (n - 1))%nat.
Proof.
  intros Hm.
  destruct (Model_init_Ok_inv _ _ _ _ _ Hm)
    as (w & Mv & He & Hd & Hw & _ & _ & Hr & Hc & _).
  destruct (eigh_Ok_shape eigh H w Mv eigh_ok He) as (_ & Hlw & HMr & HMc).
  unfold well_shaped. rewrite Hw, Hr, Hc. repeat split; congruence.
Qed.

Lemma frequency_matrix_Ok self :
  exists fm, frequency_matrix hbar self = Ok fm /\
    nrows fm = length (energies self) /\
    ncols fm = length (energies self) /\
    forall i j, (i < length (energies self))%nat ->
                (j < length (energies self))%nat ->
                item fm i j = omega hbar self i j.
Proof.
  unfold frequency_matrix.
  match goal with |- context [nd_zip Rminus ?a ?b] =>
    destruct (nd_zip_same_shape Rminus a b) as (d & -> & Hr & Hc & Hd);
      [reflexivity | reflexivity |]
  end.
  simpl in Hr, Hc, Hd. step.
  eexists; split; [reflexivity|]. simpl. repeat split; try assumption.
  intros i j Hi Hj. rewrite Hd by assumption. reflexivity.
Qed.

Lemma Lsum_terms self t :
  Lsum (map (fun ij => term hbar self ij t) (range2 (length (energies self))))
  = spec_polarisation hbar self t.
Proof. rewrite Lsum_range2. reflexivity. Qed.

Lemma polarisation_terms self fm (ts : pyval R (list R)) :
  well_shaped self ->
  nrows fm = length (energies self) ->
  ncols fm = length (energies self) ->
  (forall i j, (i < length (energies self))%nat ->
               (j < length (energies self))%nat ->
               item fm i j = omega hbar self i j) ->
  map (fun '(i, j) =>
         a ← nd_get (transition_amplitude_matrix self) i j;
         f ← nd_get fm i j;
         Ok (ufunc1 (Rmult a) (ufunc1 cos (ufunc1 (Rmult f) ts))))
      (range2 (length (energies self)))
  = map (fun ij =>
           Ok (match ts with
               | Num t => Num (term hbar self ij t)
               | Arr v => Arr (map (term hbar self ij) v)
               end))
        (range2 (length (energies self))).
Proof.
  intros [Har Hac] Hfr Hfc Hf.
  apply map_ext_in. intros [i j] Hin.
  apply In_range2 in Hin as [Hi Hj].
  rewrite !nd_get_Ok by lia. step.
  rewrite Hf by assumption.
  destruct ts as [t|v]; simpl; [reflexivity|].
  rewrite !map_map. reflexivity.
Qed.

Lemma polarisation_Num self t :
  well_shaped self ->
  polarisation hbar self (Num t) = Ok (Num (spec_polarisation hbar self t)).
Proof.
  intros Hws. unfold polarisation.
  destruct (frequency_matrix_Ok self) as (fm & -> & Hfr & Hfc & Hf). step.
  rewrite (polarisation_terms self fm (Num t)) by assumption.
  rewrite (py_sum_Num (fun ij => term hbar self ij t)), Lsum_terms. reflexivity.
Qed.

Lemma polarisation_Arr self ts :
  well_shaped self -> length (energies self) <> O ->
  polarisation hbar self (Arr ts)
  = Ok (Arr (map (spec_polarisation hbar self) ts)).
Proof.
  intros Hws HN. unfold polarisation.
  destruct (frequency_matrix_Ok self) as (fm & -> & Hfr & Hfc & Hf). step.
  rewrite (polarisation_terms self fm (Arr ts)) by assumption.
  rewrite (py_sum_Arr (term hbar self) ts) by (apply range2_nonempty; exact HN).
  do 2 f_equal. apply map_ext; intros t. apply Lsum_terms.
Qed.

Lemma omega_diagonal self i : omega hbar self i i = 0.
Proof. unfold omega. rewrite Rminus_diag, Rabs_R0. unfold Rdiv. ring. Qed.

(** C3: at every time [t] the polarisation of a constructed model is the
    double sum over all ordered pairs [(i, j)], [i = j] included, of
    [A[i][j]·cos(ω[i][j]·t)] with [ω[i][j] = |energies[i] − energies[j]| / ħ];
    an array of times gives the same sum at each of them; and a diagonal
    term is the constant [A[i][i]]. *)
Theorem polarisation_double_sum H n m t :
  Model_init hbar eigh H n = Ok m ->
  polarisation hbar m (Num t) = Ok (Num (spec_polarisation hbar m t))
  /\ (forall ts, polarisation hbar m (Arr ts)
                 = Ok (Arr (map (spec_polarisation hbar m) ts)))
  /\ (forall i, item (transition_amplitude_matrix m) i i
                * cos (omega hbar m i i * t)
                = item (transition_amplitude_matrix m) i i).
Proof.
  intros Hm. destruct (Model_init_shape H n m Hm) as (Hws & HN & Hd).
  split; [apply polarisation_Num; exact Hws|].
  split.
  - intros ts. apply polarisation_Arr; [exact Hws|].
    rewrite HN, Hd.
    pose proof (Nat.pow_nonzero 2 (Z.to_nat (n - 1))). lia.
  - intros i. rewrite omega_diagonal, Rmult_0_l, cos_0. ring.
Qed.

(** C6: the polarisation of a constructed model at [t = 0] is the sum of
    all entries of its amplitude matrix. *)
Theorem polarisation_at_zero H n m :
  Model_init hbar eigh H n = Ok m ->
  polarisation hbar m (Num 0)
  = Ok (Num (sum_entries (transition_amplitude_matrix m))).
Proof.
  intros Hm. destruct (Model_init_shape H n m Hm) as ([Hr Hc] & _).
  rewrite polarisation_Num by (split; assumption).
  do 2 f_equal. unfold spec_polarisation, sum_entries. rewrite Hr, Hc.
  apply Rsum_ext; intros i _. apply Rsum_ext; intros j _.
  rewrite Rmult_0_r, cos_0. ring.
Qed.

Lemma spec_polarisation_neg self t :
  spec_polarisation hbar self (- t) = spec_polarisation hbar self t.
Proof.
  unfold spec_polarisation.
  apply Rsum_ext; intros i _. apply Rsum_ext; intros j _.
  rewrite <- Ropp_mult_distr_r, cos_neg. reflexivity.
Qed.

(** C7: the polarisation of a constructed model is even in time: it
    returns a value [D] at [t], and the same value at [-t]. *)
Theorem polarisation_even H n m t :
  Model_init hbar eigh H n = Ok m ->
  exists D, polarisation hbar m (Num t) = Ok (Num D)
            /\ polarisation hbar m (Num (- t)) = Ok (Num D).
Proof.
  intros Hm. destruct (Model_init_shape H n m Hm) as (Hws & _).
  exists (spec_polarisation hbar m t).
  rewrite !polarisation_Num by exact Hws.
  rewrite spec_polarisation_neg. split; reflexivity.
Qed.
End Polarisation.

Lemma polarisation_double_sum_witness :
  eigh_contract eigh_diagonal /\
  exists m, Model_init 1 eigh_diagonal H_diagonal 1 = Ok m /\
    polarisation 1 m (Num 2) = Ok (Num (spec_polarisation 1 m 2))
    /\ (forall ts, polarisation 1 m (Arr ts)
                   = Ok (Arr (map (spec_polarisation 1 m) ts)))
    /\ (forall i, item (transition_amplitude_matrix m) i i
                  * cos (omega 1 m i i * 2)
                  = item (transition_amplitude_matrix m) i i).
Proof.
  split; [exact eigh_diagonal_contract|].
  eexists. split; [reflexivity|].
  apply (polarisation_double_sum 1 eigh_diagonal eigh_diagonal_contract
           H_diagonal 1).
  reflexivity.
Defined.

Lemma polarisation_at_zero_witness :
  eigh_contract eigh_diagonal /\
  exists m, Model_init 1 eigh_diagonal H_diagonal 1 = Ok m /\
    polarisation 1 m (Num 0)
    = Ok (Num (sum_entries (transition_amplitude_matrix m))).
Proof.
  split; [exact eigh_diagonal_contract|].
  eexists. split; [reflexivity|].
  apply (polarisation_at_zero 1 eigh_diagonal eigh_diagonal_contract
           H_diagonal 1).
  reflexivity.
Defined.

Lemma polarisation_even_witness :
  eigh_contract eigh_diagonal /\
  exists m, Model_init 1 eigh_diagonal H_diagonal 1 = Ok m /\
    exists D, polarisation 1 m (Num 2) = Ok (Num D)
              /\ polarisation 1 m (Num (- 2)) = Ok (Num D).
Proof.
  split; [exact eigh_diagonal_contract|].
  eexists. split; [reflexivity|].
  apply (polarisation_even 1 eigh_diagonal eigh_diagonal_contract
           H_diagonal 1).
  reflexivity.
Defined.

(** ** Energy-level diagnostics *)

Lemma canonical_lt a b ab :
  ab = canonical a b -> ab.1 <> ab.2 ->
  (ab.1 < ab.2)%Z /\ ((ab.1 = a /\ ab.2 = b) \/ (ab.1 = b /\ ab.2 = a)).
Proof.
  unfold canonical. intros -> Hne.
  destruct (decide (a > b)%Z); simpl in *; lia.
Qed.

Lemma canonical_of_lt a b x y :
  (a < b)%Z -> (a = x /\ b = y) \/ (a = y /\ b = x) -> canonical x y = (a, b).
Proof.
  unfold canonical. intros Hlt [[-> ->] | [-> ->]];
    destruct (decide _); try reflexivity; lia.
Qed.

Section Diagnostics.
Variable hbar : R.
Variable eigh : ndarray complex -> result (list R * ndarray complex).
Hypothesis eigh_ok : eigh_contract eigh.

Lemma add_transition_Ok self rf acc ij :
  well_shaped self -> length rf = length (energies self) ->
  (ij.1 < length (energies self))%nat ->
  (ij.2 < length (energies self))%nat ->
  exists acc', add_transition self rf acc ij = Ok acc' /\
    forall ab, ab ∈ acc' <-> ab ∈ acc \/ contributes self rf ij ab.
Proof.
  intros [Hr Hc] Hrf Hi Hj. unfold add_transition, contributes.
  rewrite nd_get_Ok by lia. step.
  destruct (decide (1e-8 < item (transition_amplitude_matrix self) ij.1 ij.2))
    as [Hbig|Hsmall].
  - rewrite (vec_get_Ok rf ij.1 0%Z), (vec_get_Ok rf ij.2 0%Z) by lia. step.
    fold (canonical (nth ij.1 rf 0%Z) (nth ij.2 rf 0%Z)).
    set (c := canonical (nth ij.1 rf 0%Z) (nth ij.2 rf 0%Z)).
    destruct (decide (c.1 <> c.2)) as [Hne|Heq].
    + eexists; split; [reflexivity|]. intros ab.
      rewrite elem_of_union, elem_of_singleton. split.
      * intros [Hin | ->]; [left; exact Hin | right; auto].
      * intros [Hin | (_ & Hab & _)]; [left; exact Hin | right; exact Hab].
    + eexists; split; [reflexivity|]. intros ab.
      split; [auto|]. intros [Hin | (_ & -> & Hne)]; [exact Hin|].
      contradiction.
  - eexists; split; [reflexivity|]. intros ab.
    split; [auto|]. intros [Hin | (Hbig & _)]; [exact Hin | contradiction].
Qed.

Lemma for_each_add_transition self rf l acc :
  well_shaped self -> length rf = length (energies self) ->
  (forall ij, In ij l -> (ij.1 < length (energies self))%nat /\
                         (ij.2 < length (energies self))%nat) ->
  exists acc', for_each (add_transition self rf) acc l = Ok acc' /\
    forall ab, ab ∈ acc' <->
               ab ∈ acc \/ exists ij, In ij l /\ contributes self rf ij ab.
Proof.
  intros Hws Hrf. revert acc.
  induction l as [|ij l IH]; intros acc Hl; simpl.
  - eexists; split; [reflexivity|]. intros ab.
    split; [auto|]. intros [Hin | (ij & [] & _)]. exact Hin.
  - destruct (add_transition_Ok self rf acc ij Hws Hrf) as (acc1 & -> & H1);
      [apply Hl; left; reflexivity .. |].
    step.
    destruct (IH acc1) as (acc' & -> & H2);
      [intros ij' Hin; apply Hl; right; exact Hin|].
    eexists; split; [reflexivity|]. intros ab.
    rewrite H2, H1. split.
    + intros [[Hin | Hc] | (ij' & Hin & Hc)];
        [ left; exact Hin
        | right; exists ij; split; [left; reflexivity | exact Hc]
        | right; exists ij'; split; [right; exact Hin | exact Hc] ].
    + intros [Hin | (ij' & [<- | Hin] & Hc)];
        [ left; left; exact Hin
        | left; right; exact Hc
        | right; exists ij'; split; assumption ].
Qed.

Lemma plot_energy_levels_Ok self :
  well_shaped self ->
  exists d, plot_energy_levels hbar self = Ok d /\
    plot_rounded_frequencies d
    = map (fun e => np_round (e / hbar)) (energies self) /\
    frequency_levels d = list_to_set (plot_rounded_frequencies d) /\
    forall ab, ab ∈ transitions d <->
      exists ij, In ij (range2 (length (energies self))) /\
                 contributes self (plot_rounded_frequencies d) ij ab.
Proof.
  intros Hws. unfold plot_energy_levels.
  destruct (for_each_add_transition self
              (map (fun e => np_round (e / hbar)) (energies self))
              (range2 (length (energies self))) ∅ Hws)
    as (acc & -> & Hacc).
  { apply length_map. }
  { intros [i j] Hin. apply In_range2 in Hin. exact Hin. }
  step. eexists; split; [reflexivity|]. simpl.
  split; [reflexivity|]. split; [reflexivity|].
  intros ab. rewrite Hacc. split; [|auto].
  intros [Hin | Hc]; [|exact Hc]. apply not_elem_of_empty in Hin. contradiction.
Qed.

(** C9: the transition set of a constructed model holds exactly the pairs
    [(a, b)] with [a < b] that are the two rounded frequencies of some index
    pair [(i, j)] whose amplitude [A[i][j]] is above [1e-8].  So no pair
    with [a >= b] is in it, and no pair without an amplitude above the
    threshold. *)
Theorem transitions_canonical_significant H n m :
  Model_init hbar eigh H n = Ok m ->
  exists d, plot_energy_levels hbar m = Ok d /\
    forall a b, (a, b) ∈ transitions d <->
      (a < b)%Z /\
      exists i j, (i < length (energies m))%nat /\
                  (j < length (energies m))%nat /\
                  1e-8 < item (transition_amplitude_matrix m) i j /\
                  let fi := nth i (plot_rounded_frequencies d) 0%Z in
                  let fj := nth j (plot_rounded_frequencies d) 0%Z in
                  (a = fi /\ b = fj) \/ (a = fj /\ b = fi).
Proof.
  intros Hm. destruct (Model_init_shape hbar eigh eigh_ok H n m Hm) as (Hws & _).
  destruct (plot_energy_levels_Ok m Hws) as (d & Hd & _ & _ & Ht).
  exists d. split; [exact Hd|]. intros a b. rewrite Ht. split.
  - intros ([i j] & Hin & Hbig & Hab & Hne).
    apply In_range2 in Hin as [Hi Hj].
    destruct (canonical_lt _ _ _ Hab Hne) as [Hlt Hor]. simpl in *.
    split; [exact Hlt|]. exists i, j. auto.
  - intros (Hlt & i & j & Hi & Hj & Hbig & Hor).
    exists (i, j). split.
    + unfold range2. apply in_flat_map. exists i.
      split; [apply in_seq; lia|]. apply in_map, in_seq. lia.
    + split; [exact Hbig|]. simpl.
      rewrite (canonical_of_lt a b _ _ Hlt Hor). split; [reflexivity|].
      simpl. lia.
Qed.

(** C10: the rounded frequencies stored by the constructor and the ones
    [plot_energy_levels] recomputes from the stored energies are the same
    sequence. *)
Theorem rounded_frequencies_agree H n m :
  Model_init hbar eigh H n = Ok m ->
  exists d, plot_energy_levels hbar m = Ok d /\
    plot_rounded_frequencies d = rounded_frequencies m /\
    rounded_frequencies m = map (fun e => np_round (e / hbar)) (energies m).
Proof.
  intros Hm. destruct (Model_init_shape hbar eigh eigh_ok H n m Hm) as (Hws & _).
  destruct (plot_energy_levels_Ok m Hws) as (d & Hd & Hrf & _).
  exists d. split; [exact Hd|]. rewrite Hrf.
  destruct (Model_init_Ok_inv _ _ _ _ _ Hm) as (w & Mv & _ & _ & -> & _ & -> & _).
  split; reflexivity.
Qed.
End Diagnostics.

Lemma transitions_canonical_significant_witness :
  eigh_contract eigh_diagonal /\
  exists m, Model_init 1 eigh_diagonal H_diagonal 1 = Ok m /\
    exists d, plot_energy_levels 1 m = Ok d /\
      forall a b, (a, b) ∈ transitions d <->
        (a < b)%Z /\
        exists i j, (i < length (energies m))%nat /\
                    (j < length (energies m))%nat /\
                    1e-8 < item (transition_amplitude_matrix m) i j /\
                    let fi := nth i (plot_rounded_frequencies d) 0%Z in
                    let fj := nth j (plot_rounded_frequencies d) 0%Z in
                    (a = fi /\ b = fj) \/ (a = fj /\ b = fi).
Proof.
  split; [exact eigh_diagonal_contract|].
  eexists. split; [reflexivity|].
  apply (transitions_canonical_significant 1 eigh_diagonal
           eigh_diagonal_contract H_diagonal 1).
  reflexivity.
Defined.

Lemma rounded_frequencies_agree_witness :
  eigh_contract eigh_diagonal /\
  exists m, Model_init 1 eigh_diagonal H_diagonal 1 = Ok m /\
    exists d, plot_energy_levels 1 m = Ok d /\
      plot_rounded_frequencies d = rounded_frequencies m /\
      rounded_frequencies m = map (fun e => np_round (e / 1)) (energies m).
Proof.
  split; [exact eigh_diagonal_contract|].
  eexists. split; [reflexivity|].
  apply (rounded_frequencies_agree 1 eigh_diagonal eigh_diagonal_contract
           H_diagonal 1).
  reflexivity.
Defined.

(** ** The Hamiltonian of the script *)

Lemma conj_compatible_add : conj_compatible c_add.
Proof. exact c_conj_add. Qed.

Lemma conj_compatible_sub : conj_compatible c_sub.
Proof. exact c_conj_sub. Qed.

Lemma conj_compatible_mul : conj_compatible c_mul.
Proof. exact c_conj_mul. Qed.

Lemma herm_ufunc2_Num d f z v :
  conj_compatible f -> c_conj z = z -> herm d v ->
  exists w, ufunc2 f (Num z) v = Ok w /\ herm d w.
Proof.
  intros Hf Hz (a & -> & Hd & Ha).
  eexists; split; [reflexivity|].
  eexists; split; [reflexivity|]. split; [exact Hd|].
  pose proof (Hermitian_square a Ha) as Hsq.
  apply Hermitian_intro; simpl; [exact Hsq|].
  intros i j Hi Hj.
  rewrite <- (Hermitian_entry a i j Ha Hi Hj), Hf, Hz. reflexivity.
Qed.

Lemma herm_ufunc2_Arr d f u v :
  conj_compatible f -> herm d u -> herm d v ->
  exists w, ufunc2 f u v = Ok w /\ herm d w.
Proof.
  intros Hf (a & -> & Hda & Ha) (b & -> & Hdb & Hb).
  pose proof (Hermitian_square a Ha) as Hsa.
  pose proof (Hermitian_square b Hb) as Hsb.
  destruct (nd_zip_same_shape f a b) as (c & Hc & Hcr & Hcc & Hce);
    [congruence | congruence |].
  exists (Arr c). split.
  - simpl. rewrite Hc. reflexivity.
  - exists c. split; [reflexivity|]. split; [congruence|].
    apply Hermitian_intro; [congruence|].
    intros i j Hi Hj. rewrite !Hce by lia.
    rewrite Hf, (Hermitian_entry a i j Ha), (Hermitian_entry b i j Hb) by lia.
    reflexivity.
Qed.

Lemma herm_py_sum_from d terms acc :
  herm d acc ->
  Forall (fun t => exists v, t = Ok v /\ herm d v) terms ->
  exists w, py_sum_from c_add acc terms = Ok w /\ herm d w.
Proof.
  intros Hacc Hterms. revert acc Hacc.
  induction Hterms as [|t terms (v & -> & Hv) _ IH]; intros acc Hacc;
    cbn [py_sum_from]; step.
  - eauto.
  - destruct (herm_ufunc2_Arr d c_add acc v conj_compatible_add Hacc Hv)
      as (acc' & -> & Hacc').
    step. apply IH. exact Hacc'.
Qed.

Lemma herm_py_sum d terms :
  terms <> [] ->
  Forall (fun t => exists v, t = Ok v /\ herm d v) terms ->
  exists w, py_sum c_add (RtoC 0) terms = Ok w /\ herm d w.
Proof.
  intros Hne Hterms. destruct Hterms as [|t terms (v & -> & Hv) Hrest];
    [congruence|].
  unfold py_sum. cbn [py_sum_from]. step.
  destruct (herm_ufunc2_Num d c_add (RtoC 0) v conj_compatible_add
              (c_conj_RtoC 0) Hv) as (acc & -> & Hacc).
  step. apply herm_py_sum_from; assumption.
Qed.

Section Hamiltonian.
Variables hbar mu_0 : R.

Lemma S_at_Hermitian i :
  (i < 3)%nat ->
  exists s, S_at hbar i = Ok s /\ nrows s = 2%nat /\ Hermitian s.
Proof.
  intros Hi.
  destruct i as [|[|[|i]]]; [| | |lia];
    (eexists; split; [reflexivity|]; split; [reflexivity|]; apply Hermitian_2x2; try reflexivity; c_ring).
Qed.

Lemma herm_kron3 a b c :
  nrows a = 2%nat -> nrows b = 2%nat -> nrows c = 2%nat ->
  Hermitian a -> Hermitian b -> Hermitian c ->
  exists v, Arr <$> tp [a; b; c] = Ok v /\ herm 8 v.
Proof.
  intros Ha Hb Hc HHa HHb HHc.
  eexists; split; [reflexivity|].
  eexists; split; [reflexivity|]. simpl. split.
  - rewrite Ha, Hb, Hc. reflexivity.
  - apply Hermitian_kron; [apply Hermitian_kron|]; assumption.
Qed.

Lemma spin_pair_first i :
  (i < 3)%nat ->
  exists v, (a ← S_at hbar i; b ← S_at hbar i; Arr <$> tp [a; b; I_2]) = Ok v
            /\ herm 8 v.
Proof.
  intros Hi. destruct (S_at_Hermitian i Hi) as (s & -> & Hs & HHs). step.
  apply herm_kron3; auto using Hermitian_I_2.
Qed.

Lemma spin_pair_second i :
  (i < 3)%nat ->
  exists v, (a ← S_at hbar i; b ← S_at hbar i; Arr <$> tp [a; I_2; b]) = Ok v
            /\ herm 8 v.
Proof.
  intros Hi. destruct (S_at_Hermitian i Hi) as (s & -> & Hs & HHs). step.
  apply herm_kron3; auto using Hermitian_I_2.
Qed.

Lemma Forall_range3 (P : nat -> Prop) :
  (forall i, (i < 3)%nat -> P i) -> Forall P (seq 0 3).
Proof. intros HP. repeat constructor; apply HP; lia. Qed.

Lemma H_value :
  exists v, H hbar mu_0 = Ok v /\ herm 8 v.
Proof.
  unfold H.
  destruct (herm_py_sum 8
    (map (fun i => a ← S_at hbar i; b ← S_at hbar i; Arr <$> tp [a; b; I_2])
         (seq 0 3))) as (s1 & -> & Hs1);
    [discriminate | apply Forall_map, Forall_range3, spin_pair_first |].
  step.
  destruct (spin_pair_first 2) as (p1 & -> & Hp1); [lia|]. step.
  destruct (herm_ufunc2_Num 8 c_mul (RtoC 3) p1 conj_compatible_mul
              (c_conj_RtoC 3) Hp1) as (t1 & -> & Ht1). step.
  destruct (herm_ufunc2_Arr 8 c_sub s1 t1 conj_compatible_sub Hs1 Ht1)
    as (d1 & -> & Hd1). step.
  destruct (herm_py_sum 8
    (map (fun i => a ← S_at hbar i; b ← S_at hbar i; Arr <$> tp [a; I_2; b])
         (seq 0 3))) as (s2 & -> & Hs2);
    [discriminate | apply Forall_map, Forall_range3, spin_pair_second |].
  step.
  destruct (herm_ufunc2_Arr 8 c_add d1 s2 conj_compatible_add Hd1 Hs2)
    as (a1 & -> & Ha1). step.
  destruct (spin_pair_second 2) as (p2 & -> & Hp2); [lia|]. step.
  destruct (herm_ufunc2_Num 8 c_mul (RtoC 3) p2 conj_compatible_mul
              (c_conj_RtoC 3) Hp2) as (t2 & -> & Ht2). step.
  destruct (herm_ufunc2_Arr 8 c_sub a1 t2 conj_compatible_sub Ha1 Ht2)
    as (d2 & -> & Hd2). step.
  apply (herm_ufunc2_Num 8 c_mul (RtoC (C mu_0)) d2 conj_compatible_mul
           (c_conj_RtoC _) Hd2).
Qed.

(** C2: the Hamiltonian the script builds,
    [C·(Σ tp(S[i],S[i],I) − 3·tp(S[2],S[2],I) + Σ tp(S[i],I,S[i]) − 3·tp(S[2],I,S[2]))],
    is an 8 by 8 matrix equal to its conjugate transpose, for every real
    [ħ] and [μ0] (so for every real coefficient [C]). *)
Theorem H_Hermitian :
  exists h, H hbar mu_0 = Ok (Arr h)
            /\ shape h = (8%nat, 8%nat) /\ Hermitian h.
Proof.
  destruct H_value as (v & Hv & h & -> & Hh & HH).
  exists h. split; [exact Hv|].
  pose proof (Hermitian_square h HH) as Hsq.
  split; [|exact HH]. unfold shape. rewrite <- Hsq, Hh. reflexivity.
Qed.

(** The script's [m = Model(H, 3)] is constructed: 8 is [2^3]. *)
Lemma m_constructed eigh :
  eigh_contract eigh -> is_Ok (m hbar mu_0 eigh).
Proof.
  intros Hc. unfold m.
  destruct H_value as (v & -> & h & -> & Hh & HH). step.
  pose proof (Hermitian_square h HH) as Hsq.
  destruct (eigh_square eigh Hc h Hsq) as (w & Mv & He & _ & HMr & _).
  destruct (Model_init_eigh_Ok hbar eigh h 3 w Mv He) as (m' & Hm' & _).
  - rewrite HMr, Hh. reflexivity.
  - exists m'. exact Hm'.
Qed.
End Hamiltonian.

(** ** Construction errors *)

Lemma H_not_hermitian_spec :
  nrows H_not_hermitian = ncols H_not_hermitian /\ ~ Hermitian H_not_hermitian.
Proof.
  split; [reflexivity|]. intros Hh.
  pose proof (Hermitian_entry H_not_hermitian 0 1 Hh) as He.
  simpl in He. specialize (He ltac:(lia) ltac:(lia)).
  injection He as He _. lra.
Qed.

Lemma three_not_power_of_two k : (3 <> 2 ^ k)%nat.
Proof.
  destruct k as [|[|k]]; simpl; lia.
Qed.

Section Errors.
Variable hbar : R.
Variable eigh : ndarray complex -> result (list R * ndarray complex).
Hypothesis eigh_ok : eigh_contract eigh.

Lemma Model_init_not_square H n :
  nrows H <> ncols H -> Model_init hbar eigh H n = Raise LinAlgError.
Proof.
  intros Hs. unfold Model_init.
  rewrite (eigh_not_square eigh eigh_ok H Hs). reflexivity.
Qed.

Lemma Model_init_square H n :
  nrows H = ncols H ->
  (nrows H = (2 * 2 ^ Z.to_nat (n - 1))%nat ->
     is_Ok (Model_init hbar eigh H n)) /\
  (nrows H <> (2 * 2 ^ Z.to_nat (n - 1))%nat ->
     Model_init hbar eigh H n = Raise ValueError).
Proof.
  intros Hs.
  destruct (eigh_square eigh eigh_ok H Hs) as (w & Mv & He & _ & HMr & _).
  split; intros Hd.
  - destruct (Model_init_eigh_Ok hbar eigh H n w Mv He) as (m & Hm & _);
      [congruence|]. exists m. exact Hm.
  - apply (Model_init_eigh_Raise hbar eigh H n w Mv He). congruence.
Qed.

(** C4, as the code has it: a matrix that is not square is refused by the
    eigensolver (LinAlgError).  Whether the matrix is Hermitian is never
    looked at: a square [N] by [N] matrix is accepted, for a particle
    count [n >= 1], whenever [N = 2^n]. *)
Theorem construction_rejects_only_bad_shape H n :
  (1 <= n)%Z ->
  (nrows H <> ncols H -> Model_init hbar eigh H n = Raise LinAlgError)
  /\ (nrows H = ncols H -> nrows H = (2 ^ Z.to_nat n)%nat ->
      is_Ok (Model_init hbar eigh H n)).
Proof.
  intros Hn. split.
  - apply Model_init_not_square.
  - intros Hs Hd. apply Model_init_square; [exact Hs|].
    rewrite two_pow_particles by exact Hn. exact Hd.
Qed.

(** C8, as the code has it: for a particle count [n >= 1] and a square
    [N] by [N] Hamiltonian, construction fails in the matrix product
    (ValueError) when [N <> 2^n]; so a constructed model has [2^n]
    energies, and [int(log2(N))] gives back exactly [n].  That inference
    has no check of its own: on any non-empty spectrum it returns the
    integer part of [log2(N)]. *)
Theorem dimension_matches_particle_count H n :
  (1 <= n)%Z ->
  (nrows H = ncols H -> nrows H <> (2 ^ Z.to_nat n)%nat ->
     Model_init hbar eigh H n = Raise ValueError)
  /\ (forall m, Model_init hbar eigh H n = Ok m ->
        length (energies m) = (2 ^ Z.to_nat n)%nat /\
        print_details_particle_count m = Ok n)
  /\ (forall self, length (energies self) <> O ->
        print_details_particle_count self
        = Ok (Z.log2 (Z.of_nat (length (energies self))))).
Proof.
  intros Hn. split; [|split].
  - intros Hs Hd. apply Model_init_square; [exact Hs|].
    rewrite two_pow_particles by exact Hn. exact Hd.
  - intros m Hm.
    destruct (Model_init_shape hbar eigh eigh_ok H n m Hm) as (_ & HN & Hd).
    rewrite two_pow_particles in Hd by exact Hn.
    assert (length (energies m) = (2 ^ Z.to_nat n)%nat) as Hlen by congruence.
    split; [exact Hlen|].
    unfold print_details_particle_count. rewrite Hlen.
    pose proof (Nat.pow_nonzero 2 (Z.to_nat n)) as Hnz.
    destruct (Nat.eqb_spec (2 ^ Z.to_nat n) 0); [lia|].
    f_equal. rewrite Nat2Z.inj_pow, Z2Nat.id by lia.
    apply Z.log2_pow2. lia.
  - intros self HN. unfold print_details_particle_count.
    destruct (Nat.eqb_spec (length (energies self)) 0); [contradiction|].
    reflexivity.
Qed.
End Errors.

Lemma construction_rejects_only_bad_shape_witness :
  eigh_contract eigh_diagonal /\ (1 <= 1)%Z /\
  nrows H_row <> ncols H_row /\
  Model_init 1 eigh_diagonal H_row 1 = Raise LinAlgError /\
  nrows H_diagonal = ncols H_diagonal /\
  nrows H_diagonal = (2 ^ Z.to_nat 1)%nat /\
  is_Ok (Model_init 1 eigh_diagonal H_diagonal 1).
Proof.
  assert (1 <= 1)%Z as Hn by lia.
  split; [exact eigh_diagonal_contract|]. split; [exact Hn|].
  assert (nrows H_row <> ncols H_row) as Hrow by (simpl; lia).
  split; [exact Hrow|]. split.
  - apply (construction_rejects_only_bad_shape 1 eigh_diagonal
             eigh_diagonal_contract H_row 1 Hn).
    exact Hrow.
  - split; [reflexivity|]. split; [reflexivity|].
    apply (construction_rejects_only_bad_shape 1 eigh_diagonal
             eigh_diagonal_contract H_diagonal 1 Hn); reflexivity.
Defined.

Lemma dimension_matches_particle_count_witness :
  eigh_contract eigh_diagonal /\ (1 <= 1)%Z /\
  Model_init 1 eigh_diagonal (np_eye 3) 1 = Raise ValueError /\
  exists m, Model_init 1 eigh_diagonal H_diagonal 1 = Ok m /\
    length (energies m) = (2 ^ Z.to_nat 1)%nat /\
    print_details_particle_count m = Ok 1%Z.
Proof.
  assert (1 <= 1)%Z as Hn by lia.
  split; [exact eigh_diagonal_contract|]. split; [exact Hn|]. split.
  - apply (dimension_matches_particle_count 1 eigh_diagonal
             eigh_diagonal_contract (np_eye 3) 1 Hn); [reflexivity|].
    simpl. lia.
  - eexists. split; [reflexivity|].
    apply (dimension_matches_particle_count 1 eigh_diagonal
             eigh_diagonal_contract H_diagonal 1 Hn).
    reflexivity.
Defined.

(** C4 as stated fails: this square matrix is not Hermitian, and a model is
    constructed from it, by the diagonal solver and by every eigensolver. *)
Lemma non_hermitian_accepted :
  nrows H_not_hermitian = ncols H_not_hermitian
  /\ ~ Hermitian H_not_hermitian
  /\ is_Ok (Model_init 1 eigh_diagonal H_not_hermitian 1)
  /\ forall hbar eigh, eigh_contract eigh ->
       is_Ok (Model_init hbar eigh H_not_hermitian 1).
Proof.
  destruct H_not_hermitian_spec as [Hs Hn].
  split; [exact Hs|]. split; [exact Hn|]. split.
  - eexists. reflexivity.
  - intros hbar eigh Hc.
    apply (Model_init_square hbar eigh Hc H_not_hermitian 1 Hs). reflexivity.
Qed.

(** C8 as stated fails twice: with particle count 0 a model is constructed
    from a 2 by 2 matrix although [2 <> 2^0]; and on a spectrum of length 3
    the inference returns 1 instead of failing. *)
Lemma dimension_check_missing :
  (nrows H_diagonal <> (2 ^ Z.to_nat 0)%nat
   /\ is_Ok (Model_init 1 eigh_diagonal H_diagonal 0)
   /\ forall hbar eigh, eigh_contract eigh ->
        is_Ok (Model_init hbar eigh H_diagonal 0))
  /\ ((forall k, length (energies three_levels) <> (2 ^ k)%nat)
      /\ print_details_particle_count three_levels = Ok 1%Z).
Proof.
  split; [split; [|split] | split].
  - simpl. lia.
  - eexists. reflexivity.
  - intros hbar eigh Hc.
    apply (Model_init_square hbar eigh Hc H_diagonal 0); reflexivity.
  - intros k. apply three_not_power_of_two.
  - reflexivity.
Qed.

(** ** The model on concrete inputs *)

Lemma c_abs_sqr z : c_abs z ^ 2 = z.1 * z.1 + z.2 * z.2.
Proof.
  unfold c_abs. apply pow2_sqrt.
  pose proof (Rle_0_sqr z.1). pose proof (Rle_0_sqr z.2).
  unfold Rsqr in *. lra.
Qed.

(** Ties go to the even neighbour. *)
Example np_round_ties :
  np_round (5 / 2) = 2%Z /\ np_round (7 / 2) = 4%Z /\ np_round (- 1 / 2) = 0%Z.
Proof.
  assert (Zfloor (5 / 2) = 2%Z) as H2 by (apply Zfloor_eq; simpl; lra).
  assert (Zfloor (7 / 2) = 3%Z) as H3 by (apply Zfloor_eq; simpl; lra).
  assert (Zfloor (- 1 / 2) = (-1)%Z) as H1 by (apply Zfloor_eq; simpl; lra).
  unfold np_round. rewrite H2, H3, H1. simpl.
  repeat split; repeat (destruct (decide _); try lra); reflexivity.
Qed.

(** The two-level model with energies [-1] and [1]: its amplitudes are
    [1/6] on the diagonal and [1/3] off it, and they add up to [1]. *)
Example two_level_amplitudes :
  exists m, Model_init 1 eigh_diagonal H_diagonal 1 = Ok m /\
    energies m = [-1; 1] /\
    item (transition_amplitude_matrix m) 0 0 = 1 / 6 /\
    item (transition_amplitude_matrix m) 0 1 = 1 / 3 /\
    item (transition_amplitude_matrix m) 1 0 = 1 / 3 /\
    item (transition_amplitude_matrix m) 1 1 = 1 / 6 /\
    sum_entries (transition_amplitude_matrix m) = 1.
Proof.
  eexists. split; [reflexivity|]. split; [reflexivity|].
  unfold sum_entries. cbn -[pow c_abs powerRZ].
  rewrite !c_abs_sqr. simpl. repeat split; field.
Qed.

(** Its polarisation is [1/3 + 2/3·cos(2t)] when [ħ = 1]. *)
Example two_level_polarisation t :
  exists m, Model_init 1 eigh_diagonal H_diagonal 1 = Ok m /\
    polarisation 1 m (Num t) = Ok (Num (1 / 3 + 2 / 3 * cos (2 * t))).
Proof.
  eexists. split; [reflexivity|].
  rewrite polarisation_Num by (split; reflexivity).
  do 2 f_equal. unfold spec_polarisation, omega.
  cbn -[pow c_abs powerRZ cos Rabs].
  rewrite !c_abs_sqr. simpl.
  replace (Rabs (-1 - -1)) with 0 by (rewrite Rabs_right by lra; ring).
  replace (Rabs (1 - 1)) with 0 by (rewrite Rabs_right by lra; ring).
  replace (Rabs (-1 - 1)) with 2 by (rewrite Rabs_left by lra; ring).
  replace (Rabs (1 - -1)) with 2 by (rewrite Rabs_right by lra; ring).
  replace (0 / 1 * t) with 0 by field. replace (2 / 1 * t) with (2 * t) by field.
  rewrite cos_0. field.
Qed.

(** ** Conjugate transposes and tensor products *)

Lemma c_mul_comm z w : c_mul z w = c_mul w z.
Proof. c_ring. Qed.

Lemma nd_eq_refl {T} (a : ndarray T) : nd_eq a a.
Proof. repeat split. Qed.

Lemma nd_eq_sym {T} (a b : ndarray T) : nd_eq a b -> nd_eq b a.
Proof.
  intros (Hr & Hc & He). repeat split; try congruence.
  intros i j Hi Hj. symmetry. apply He; congruence.
Qed.

Lemma nd_eq_trans {T} (a b c : ndarray T) : nd_eq a b -> nd_eq b c -> nd_eq a c.
Proof.
  intros (Hr & Hc & He) (Hr' & Hc' & He'). repeat split; try congruence.
  intros i j Hi Hj. rewrite He by assumption. apply He'; congruence.
Qed.

Lemma kron_index_lt i r1 r2 :
  (i < r1 * r2)%nat -> (i / r2 < r1)%nat /\ (i mod r2 < r2)%nat.
Proof.
  intros Hi. assert (r2 <> 0)%nat by (intros ->; lia). split.
  - apply Nat.Div0.div_lt_upper_bound. lia.
  - apply Nat.mod_upper_bound. assumption.
Qed.

Lemma np_kron_eq_l a a' b : nd_eq a a' -> nd_eq (np_kron a b) (np_kron a' b).
Proof.
  intros (Hr & Hc & He). unfold nd_eq. simpl. repeat split; try congruence.
  intros i j Hi Hj. rewrite He; [reflexivity | |];
    eapply kron_index_lt; eassumption.
Qed.

Lemma fold_kron_eq rest a a' :
  nd_eq a a' -> nd_eq (fold_left np_kron rest a) (fold_left np_kron rest a').
Proof.
  revert a a'. induction rest as [|b rest IH]; intros a a' Ha; simpl.
  - exact Ha.
  - apply IH, np_kron_eq_l, Ha.
Qed.

Lemma adj_np_kron a b : nd_eq (adj (np_kron a b)) (np_kron (adj a) (adj b)).
Proof.
  unfold nd_eq. simpl. repeat split.
  intros i j _ _. apply c_conj_mul.
Qed.

Lemma div_mod_mul i r1 r2 :
  (r2 <> 0)%nat ->
  ((i mod (r1 * r2)) / r2 = (i / r2) mod r1 /\
   (i mod (r1 * r2)) mod r2 = i mod r2)%nat.
Proof.
  intros Hr2. rewrite (Nat.mul_comm r1 r2), Nat.Div0.mod_mul_r.
  split.
  - rewrite Nat.mul_comm, Nat.div_add by assumption.
    rewrite Nat.div_small by (apply Nat.mod_upper_bound; assumption).
    reflexivity.
  - rewrite Nat.mul_comm, Nat.Div0.mod_add. apply Nat.Div0.mod_mod.
Qed.

Lemma np_kron_assoc a b c :
  nd_eq (np_kron (np_kron a b) c) (np_kron a (np_kron b c)).
Proof.
  unfold nd_eq. simpl. repeat split; try lia.
  intros i j Hi Hj.
  assert (nrows c <> 0)%nat as Hrc by (intros Hz; rewrite Hz in Hi; lia).
  assert (ncols c <> 0)%nat as Hcc by (intros Hz; rewrite Hz in Hj; lia).
  destruct (div_mod_mul i (nrows b) (nrows c) Hrc) as [-> ->].
  destruct (div_mod_mul j (ncols b) (ncols c) Hcc) as [-> ->].
  rewrite !Nat.Div0.div_div.
  rewrite (Nat.mul_comm (nrows c)), (Nat.mul_comm (ncols c)).
  c_ring.
Qed.

Lemma fold_kron_assoc rest a b :
  nd_eq (fold_left np_kron rest (np_kron a b))
        (np_kron a (fold_left np_kron rest b)).
Proof.
  revert a b. induction rest as [|c rest IH]; intros a b; simpl.
  - apply nd_eq_refl.
  - eapply nd_eq_trans; [apply fold_kron_eq, np_kron_assoc | apply IH].
Qed.

(** X1: conjugate-transposing a matrix product reverses it,
    [adj(a @ b) = adj(b) @ adj(a)], and one side raises exactly when the
    other does. *)
Theorem adj_matmul a b :
  match matmul a b with
  | Ok c => exists c', matmul (adj b) (adj a) = Ok c' /\ nd_eq (adj c) c'
  | Raise e => matmul (adj b) (adj a) = Raise e
  end.
Proof.
  unfold matmul. simpl.
  destruct (Nat.eqb_spec (ncols a) (nrows b)) as [Heq|Hne].
  - rewrite (proj2 (Nat.eqb_eq (nrows b) (ncols a))) by congruence.
    eexists; split; [reflexivity|].
    unfold nd_eq. simpl. repeat split.
    intros i j _ _. rewrite c_sum_conj, Heq.
    apply c_sum_ext; intros k _. rewrite c_conj_mul. apply c_mul_comm.
  - rewrite (proj2 (Nat.eqb_neq (nrows b) (ncols a))) by congruence.
    reflexivity.
Qed.

Lemma adj_fold_kron rest a :
  nd_eq (adj (fold_left np_kron rest a))
        (fold_left np_kron (map adj rest) (adj a)).
Proof.
  revert a. induction rest as [|b rest IH]; intros a; simpl.
  - apply nd_eq_refl.
  - eapply nd_eq_trans; [apply IH | apply fold_kron_eq, adj_np_kron].
Qed.

(** X2: the conjugate transpose of a tensor product is the tensor product of
    the conjugate transposes, in the same order; with no operand both raise
    IndexError. *)
Theorem adj_tp args :
  match tp args with
  | Ok t => exists t', tp (map adj args) = Ok t' /\ nd_eq (adj t) t'
  | Raise e => tp (map adj args) = Raise e
  end.
Proof.
  destruct args as [|a rest]; simpl; [reflexivity|].
  eexists; split; [reflexivity|]. apply adj_fold_kron.
Qed.

Lemma fold_kron_shape rest a :
  nrows (fold_left np_kron rest a)
    = (nrows a * fold_right Nat.mul 1 (map nrows rest))%nat /\
  ncols (fold_left np_kron rest a)
    = (ncols a * fold_right Nat.mul 1 (map ncols rest))%nat.
Proof.
  revert a. induction rest as [|b rest IH]; intros a; simpl.
  - lia.
  - destruct (IH (np_kron a b)) as [-> ->]. simpl. lia.
Qed.

(** X3: [tp] of no operand raises IndexError; otherwise it returns a matrix
    whose row count is the product of the operands' row counts and whose
    column count is the product of their column counts. *)
Theorem tp_shape args :
  match args with
  | [] => tp args = Raise IndexError
  | _ :: _ =>
      exists t, tp args = Ok t /\
        nrows t = fold_right Nat.mul 1%nat (map nrows args) /\
        ncols t = fold_right Nat.mul 1%nat (map ncols args)
  end.
Proof.
  destruct args as [|a rest]; [reflexivity|].
  eexists; split; [reflexivity|]. apply fold_kron_shape.
Qed.

(** X4: [tp] is associative: the product of a list of operands followed by
    another is the Kronecker product of the two products,
    [tp(xs..., ys...) = kron(tp(xs...), tp(ys...))]. *)
Theorem tp_app xs ys :
  xs <> [] -> ys <> [] ->
  exists tx ty t, tp xs = Ok tx /\ tp ys = Ok ty /\ tp (xs ++ ys) = Ok t /\
    nd_eq t (np_kron tx ty).
Proof.
  intros Hx Hy.
  destruct xs as [|x xs]; [congruence|]. destruct ys as [|y ys]; [congruence|].
  eexists _, _, _. split; [reflexivity|]. split; [reflexivity|].
  split; [reflexivity|].
  simpl. rewrite fold_left_app. simpl. apply fold_kron_assoc.
Qed.

Lemma tp_app_witness :
  [sigma_x; I_2] <> [] /\ [sigma_z] <> [] /\
  exists tx ty t, tp [sigma_x; I_2] = Ok tx /\ tp [sigma_z] = Ok ty /\
    tp ([sigma_x; I_2] ++ [sigma_z]) = Ok t /\ nd_eq t (np_kron tx ty).
Proof.
  assert ([sigma_x; I_2] <> []) as Hx by discriminate.
  assert ([sigma_z] <> []) as Hy by discriminate.
  split; [exact Hx|]. split; [exact Hy|].
  exact (tp_app [sigma_x; I_2] [sigma_z] Hx Hy).
Defined.

(** ** More on the polarisation *)

Lemma stored_amplitude_nonneg Mv n i j : 0 <= stored_amplitude Mv n i j.
Proof.
  unfold stored_amplitude.
  pose proof (powerRZ_2_pos n) as Hp.
  pose proof (pow2_ge_0 (c_abs (rotated Mv (tensorProduct_first sigma_x n) i j))).
  pose proof (pow2_ge_0 (c_abs (rotated Mv (tensorProduct_first sigma_z n) i j))).
  apply Rmult_le_pos; [|left; apply Rinv_0_lt_compat; exact Hp].
  apply Rmult_le_pos; lra.
Qed.

Lemma Rsum_abs_le n f g :
  (forall k, (k < n)%nat -> Rabs (f k) <= g k) -> Rabs (Rsum n f) <= Rsum n g.
Proof.
  induction n as [|n IH]; intros Hfg; simpl.
  - rewrite Rabs_R0. lra.
  - eapply Rle_trans; [apply Rabs_triang|].
    apply Rplus_le_compat; [apply IH; intros; apply Hfg; lia | apply Hfg; lia].
Qed.

Section Polarisation_bounds.
Variable hbar : R.
Variable eigh : ndarray complex -> result (list R * ndarray complex).
Hypothesis eigh_ok : eigh_contract eigh.

Lemma Model_init_amplitudes_nonneg H n m i j :
  Model_init hbar eigh H n = Ok m ->
  (i < length (energies m))%nat -> (j < length (energies m))%nat ->
  0 <= item (transition_amplitude_matrix m) i j.
Proof.
  intros Hm Hi Hj.
  destruct (Model_init_shape hbar eigh eigh_ok H n m Hm) as ([Hr Hc] & _).
  destruct (Model_init_Ok_inv _ _ _ _ _ Hm)
    as (w & Mv & _ & _ & _ & _ & _ & Hr' & Hc' & HA).
  rewrite HA by congruence. apply stored_amplitude_nonneg.
Qed.

Lemma spec_polarisation_bound H n m t :
  Model_init hbar eigh H n = Ok m ->
  Rabs (spec_polarisation hbar m t) <= spec_polarisation hbar m 0.
Proof.
  intros Hm. unfold spec_polarisation.
  apply Rsum_abs_le; intros i Hi. apply Rsum_abs_le; intros j Hj.
  pose proof (Model_init_amplitudes_nonneg H n m i j Hm Hi Hj) as HA.
  rewrite Rmult_0_r, cos_0, Rabs_mult, (Rabs_right _ (Rle_ge _ _ HA)).
  pose proof (COS_bound (omega hbar m i j * t)) as [Hlo Hhi].
  assert (Rabs (cos (omega hbar m i j * t)) <= 1) as Hcos
    by (apply Rabs_le; lra).
  nra.
Qed.

(** X5: the polarisation of a constructed model never leaves the band set
    by its value at time zero: [|D(t)| <= D(0)] for every [t]. *)
Theorem polarisation_bounded H n m t :
  Model_init hbar eigh H n = Ok m ->
  exists D D0, polarisation hbar m (Num t) = Ok (Num D)
               /\ polarisation hbar m (Num 0) = Ok (Num D0)
               /\ Rabs D <= D0.
Proof.
  intros Hm. destruct (Model_init_shape hbar eigh eigh_ok H n m Hm) as (Hws & _).
  exists (spec_polarisation hbar m t), (spec_polarisation hbar m 0).
  rewrite !polarisation_Num by exact Hws.
  split; [reflexivity|]. split; [reflexivity|].
  apply (spec_polarisation_bound H n m t Hm).
Qed.
End Polarisation_bounds.

Lemma polarisation_bounded_witness :
  eigh_contract eigh_diagonal /\
  exists m, Model_init 1 eigh_diagonal H_diagonal 1 = Ok m /\
    exists D D0, polarisation 1 m (Num 5) = Ok (Num D)
                 /\ polarisation 1 m (Num 0) = Ok (Num D0)
                 /\ Rabs D <= D0.
Proof.
  split; [exact eigh_diagonal_contract|].
  eexists. split; [reflexivity|].
  apply (polarisation_bounded 1 eigh_diagonal eigh_diagonal_contract
           H_diagonal 1).
  reflexivity.
Defined.


Section Polarisation_shift.
Variable hbar : R.

Lemma omega_shift c self i j :
  (i < length (energies self))%nat -> (j < length (energies self))%nat ->
  omega hbar (shift_energies c self) i j = omega hbar self i j.
Proof.
  intros Hi Hj. unfold omega, shift_energies. simpl.
  rewrite !(nth_indep _ 0 (c + 0)) by (rewrite length_map; assumption).
  rewrite !(map_nth (Rplus c)). f_equal. f_equal. ring.
Qed.

(** X6: only energy differences matter: raising every energy of a model by
    the same amount leaves [polarisation] unchanged, value or exception, for
    a time or an array of times. *)
Theorem polarisation_shift_invariant c self ts :
  polarisation hbar (shift_energies c self) ts = polarisation hbar self ts.
Proof.
  unfold polarisation.
  destruct (frequency_matrix_Ok hbar self) as (fm & -> & Hr & Hc & Hf).
  destruct (frequency_matrix_Ok hbar (shift_energies c self))
    as (fm' & -> & Hr' & Hc' & Hf').
  step.
  assert (length (energies (shift_energies c self)) = length (energies self))
    as HN by apply length_map.
  rewrite HN in *. f_equal.
  apply map_ext_in. intros [i j] Hin.
  apply In_range2 in Hin as [Hi Hj]. simpl.
  rewrite (nd_get_Ok fm'), (nd_get_Ok fm) by lia.
  rewrite Hf', Hf, omega_shift by assumption. reflexivity.
Qed.
End Polarisation_shift.

(** ** More on the constructor *)

Lemma np_round_close x : Rabs (IZR (np_round x) - x) <= 1 / 2.
Proof.
  unfold np_round. pose proof (Zfloor_bound x) as [Hlo Hhi].
  destruct (decide (x - IZR (Zfloor x) < 1 / 2)) as [Hd|Hd].
  - apply Rabs_le. lra.
  - destruct (decide (1 / 2 < x - IZR (Zfloor x))) as [Hu|Hu].
    + rewrite plus_IZR. apply Rabs_le. simpl. lra.
    + destruct (Z.even (Zfloor x)).
      * apply Rabs_le. lra.
      * rewrite plus_IZR. apply Rabs_le. simpl. lra.
Qed.

Section Constructor_facts.
Variable hbar : R.
Variable eigh : ndarray complex -> result (list R * ndarray complex).

(** X7: a constructed model stores one rounded frequency per energy, each
    an integer within [1/2] of [energies[i] / ħ]. *)
Theorem rounded_frequencies_close H n m :
  Model_init hbar eigh H n = Ok m ->
  length (rounded_frequencies m) = length (energies m) /\
  forall i, (i < length (energies m))%nat ->
    Rabs (IZR (nth i (rounded_frequencies m) 0%Z) - nth i (energies m) 0 / hbar)
    <= 1 / 2.
Proof.
  intros Hm.
  destruct (Model_init_Ok_inv _ _ _ _ _ Hm) as (w & Mv & _ & _ & -> & _ & -> & _).
  split; [apply length_map|]. intros i Hi.
  rewrite (nth_indep _ 0%Z (np_round (0 / hbar))) by (rewrite length_map; exact Hi).
  rewrite (map_nth (fun e => np_round (e / hbar))). apply np_round_close.
Qed.

(** X8: a particle count of one or less adds no identity factor, so the
    operators stay 2 by 2: from a square matrix a model is constructed
    exactly when the matrix is 2 by 2, and otherwise the matrix product
    raises ValueError. *)
Theorem small_particle_count_needs_2x2 H n :
  eigh_contract eigh -> (n <= 1)%Z -> nrows H = ncols H ->
  (nrows H = 2%nat -> is_Ok (Model_init hbar eigh H n)) /\
  (nrows H <> 2%nat -> Model_init hbar eigh H n = Raise ValueError).
Proof.
  intros Hc Hn Hs.
  pose proof (Model_init_square hbar eigh Hc H n Hs) as [Hok Herr].
  assert (Z.to_nat (n - 1) = O) as Hz by lia.
  rewrite Hz in Hok, Herr. simpl in Hok, Herr. split; assumption.
Qed.
End Constructor_facts.

Lemma rounded_frequencies_close_witness :
  exists m, Model_init 1 eigh_diagonal H_diagonal 1 = Ok m /\
    length (rounded_frequencies m) = length (energies m) /\
    forall i, (i < length (energies m))%nat ->
      Rabs (IZR (nth i (rounded_frequencies m) 0%Z) - nth i (energies m) 0 / 1)
      <= 1 / 2.
Proof.
  eexists. split; [reflexivity|].
  apply (rounded_frequencies_close 1 eigh_diagonal H_diagonal 1).
  reflexivity.
Defined.

Lemma small_particle_count_needs_2x2_witness :
  eigh_contract eigh_diagonal /\ (0 <= 1)%Z /\
  nrows H_diagonal = ncols H_diagonal /\
  (nrows H_diagonal = 2%nat -> is_Ok (Model_init 1 eigh_diagonal H_diagonal 0)) /\
  (nrows H_diagonal <> 2%nat ->
     Model_init 1 eigh_diagonal H_diagonal 0 = Raise ValueError).
Proof.
  assert (0 <= 1)%Z as Hn by lia.
  split; [exact eigh_diagonal_contract|]. split; [exact Hn|].
  split; [reflexivity|].
  apply (small_particle_count_needs_2x2 1 eigh_diagonal H_diagonal 0
           eigh_diagonal_contract Hn).
  reflexivity.
Defined.

(** ** Eigenvector phases *)

Lemma c_abs_mul z w : c_abs (c_mul z w) = c_abs z * c_abs w.
Proof.
  unfold c_abs, c_mul. simpl.
  rewrite <- sqrt_mult.
  - f_equal. ring.
  - pose proof (Rle_0_sqr z.1). pose proof (Rle_0_sqr z.2).
    unfold Rsqr in *. lra.
  - pose proof (Rle_0_sqr w.1). pose proof (Rle_0_sqr w.2).
    unfold Rsqr in *. lra.
Qed.

Lemma c_sum_mul_l n f z :
  c_mul z (c_sum n f) = c_sum n (fun k => c_mul z (f k)).
Proof.
  induction n as [|n IH]; simpl; [c_ring|].
  rewrite <- IH. c_ring.
Qed.

Lemma rotated_phase M1 M2 T (u : nat -> complex) i j :
  ncols T = nrows M1 -> nrows M2 = nrows M1 ->
  (i < ncols M1)%nat -> (j < ncols M1)%nat ->
  (forall k c, (k < nrows M1)%nat -> (c < ncols M1)%nat ->
     item M2 k c = c_mul (u c) (item M1 k c)) ->
  rotated M2 T i j = c_mul (c_mul (c_conj (u i)) (u j)) (rotated M1 T i j).
Proof.
  intros HT Hr Hi Hj Hu. unfold rotated. rewrite Hr, c_sum_mul_l.
  apply c_sum_ext; intros l Hl.
  rewrite (Hu l j) by lia.
  rewrite (c_sum_ext _ _ (fun k => c_mul (c_conj (u i))
             (c_mul (c_conj (item M1 k i)) (item T k l)))).
  - rewrite <- c_sum_mul_l. c_ring.
  - intros k Hk. rewrite (Hu k i) by lia. rewrite c_conj_mul. c_ring.
Qed.

Lemma polarisation_ext hbar self self' ts :
  energies self' = energies self ->
  nd_eq (transition_amplitude_matrix self') (transition_amplitude_matrix self) ->
  polarisation hbar self' ts = polarisation hbar self ts.
Proof.
  intros He (Hr & Hc & HA). unfold polarisation, frequency_matrix. rewrite He.
  destruct (nd_zip _ _ _) as [d|e]; [|reflexivity]. step.
  f_equal. apply map_ext_in. intros [i j] _. cbv beta iota.
  assert (nd_get (transition_amplitude_matrix self') i j
          = nd_get (transition_amplitude_matrix self) i j) as ->; [|reflexivity].
  unfold nd_get. rewrite <- Hr, <- Hc.
  destruct (_ && _) eqn:Hin; [|reflexivity].
  apply andb_prop in Hin as [Hi Hj].
  apply Nat.ltb_lt in Hi, Hj. rewrite HA by assumption. reflexivity.
Qed.

Section Phases.
Variable hbar : R.

(** X9: the phase of the eigenvectors does not matter.  If two eigensolvers
    return the same eigenvalues and eigenvectors that differ column by
    column by a factor of modulus one, the models constructed from them
    have the same energies, the same amplitude matrix and the same
    polarisation. *)
Theorem eigenvector_phase_irrelevant eigh1 eigh2 H n w M1 M2 u m1 :
  eigh1 H = Ok (w, M1) -> eigh2 H = Ok (w, M2) ->
  nrows M2 = nrows M1 -> ncols M2 = ncols M1 ->
  (forall k c, (k < nrows M1)%nat -> (c < ncols M1)%nat ->
     item M2 k c = c_mul (u c) (item M1 k c)) ->
  (forall c, c_abs (u c) = 1) ->
  Model_init hbar eigh1 H n = Ok m1 ->
  exists m2, Model_init hbar eigh2 H n = Ok m2 /\
    energies m2 = energies m1 /\
    nd_eq (transition_amplitude_matrix m2) (transition_amplitude_matrix m1) /\
    forall ts, polarisation hbar m2 ts = polarisation hbar m1 ts.
Proof.
  intros He1 He2 Hr Hc Hu Hmod Hm1.
  destruct (Model_init_Ok_inv _ _ _ _ _ Hm1)
    as (w' & M1' & He1' & Hd & Hw & _ & _ & Hr1 & Hc1 & HA1).
  rewrite He1 in He1'. injection He1' as <- <-.
  destruct (Model_init_eigh_Ok hbar eigh2 H n w M2 He2)
    as (m2 & Hm2 & Hw2 & _ & _ & Hr2 & Hc2 & HA2); [congruence|].
  exists m2. split; [exact Hm2|].
  assert (nd_eq (transition_amplitude_matrix m2) (transition_amplitude_matrix m1))
    as HA.
  { unfold nd_eq. repeat split; try congruence.
    intros i j Hi Hj. rewrite HA2, HA1 by congruence.
    unfold stored_amplitude.
    rewrite !(rotated_phase M1 M2 _ u i j)
      by first [ rewrite tensorProduct_first_ncols; symmetry; exact Hd
               | assumption | lia ].
    rewrite !c_abs_mul, c_abs_conj, !Hmod, !Rmult_1_l. reflexivity. }
  split; [congruence|]. split; [exact HA|].
  intros ts. apply polarisation_ext; [congruence | exact HA].
Qed.
End Phases.

Lemma eigenvector_phase_irrelevant_witness :
  exists m1, Model_init 1 eigh_diagonal H_diagonal 1 = Ok m1 /\
  exists m2, Model_init 1 eigh_diagonal_flipped H_diagonal 1 = Ok m2 /\
    energies m2 = energies m1 /\
    nd_eq (transition_amplitude_matrix m2) (transition_amplitude_matrix m1) /\
    forall ts, polarisation 1 m2 ts = polarisation 1 m1 ts.
Proof.
  eexists. split; [reflexivity|].
  apply (eigenvector_phase_irrelevant 1 eigh_diagonal eigh_diagonal_flipped
           H_diagonal 1 [-1; 1] (np_eye 2)
           (nd_map (c_mul (RtoC (-1))) (np_eye 2)) (fun _ => RtoC (-1))).
  - reflexivity.
  - reflexivity.
  - reflexivity.
  - reflexivity.
  - intros k c _ _. reflexivity.
  - intros _. unfold c_abs, RtoC. simpl.
    replace (-1 * -1 + 0 * 0) with 1 by ring. apply sqrt_1.
  - reflexivity.
Defined.

(** ** More on the energy-level diagnostics *)

Section Levels.
Variable hbar : R.
Variable eigh : ndarray complex -> result (list R * ndarray complex).
Hypothesis eigh_ok : eigh_contract eigh.

(** X10: every arrow joins two drawn levels: both ends of a transition of a
    constructed model are in its set of frequency levels, and the set never
    holds a pair together with its reverse. *)
Theorem transitions_join_levels H n m :
  Model_init hbar eigh H n = Ok m ->
  exists d, plot_energy_levels hbar m = Ok d /\
    forall a b, (a, b) ∈ transitions d ->
      a ∈ frequency_levels d /\ b ∈ frequency_levels d /\
      (b, a) ∉ transitions d.
Proof.
  intros Hm. destruct (Model_init_shape hbar eigh eigh_ok H n m Hm) as (Hws & _).
  destruct (plot_energy_levels_Ok hbar m Hws) as (d & Hd & Hrf & Hlev & Ht).
  exists d. split; [exact Hd|]. intros a b Hab.
  apply Ht in Hab as ([i j] & Hin & _ & Hc & Hne).
  apply In_range2 in Hin as [Hi Hj].
  destruct (canonical_lt _ _ _ Hc Hne) as [Hlt Hor]. simpl in Hlt, Hor.
  assert (forall k, (k < length (energies m))%nat ->
            nth k (plot_rounded_frequencies d) 0%Z ∈ frequency_levels d) as Hmem.
  { intros k Hk. rewrite Hlev. apply elem_of_list_to_set.
    apply list_elem_of_In, nth_In. rewrite Hrf, length_map. exact Hk. }
  split; [|split].
  - destruct Hor as [[-> _] | [-> _]]; apply Hmem; assumption.
  - destruct Hor as [[_ ->] | [_ ->]]; apply Hmem; assumption.
  - intros Hba. apply Ht in Hba as (ij' & _ & _ & Hc' & Hne').
    destruct (canonical_lt _ _ _ Hc' Hne') as [Hlt' _]. simpl in Hlt'. lia.
Qed.
End Levels.

Lemma transitions_join_levels_witness :
  eigh_contract eigh_diagonal /\
  exists m, Model_init 1 eigh_diagonal H_diagonal 1 = Ok m /\
    exists d, plot_energy_levels 1 m = Ok d /\
      forall a b, (a, b) ∈ transitions d ->
        a ∈ frequency_levels d /\ b ∈ frequency_levels d /\
        (b, a) ∉ transitions d.
Proof.
  split; [exact eigh_diagonal_contract|].
  eexists. split; [reflexivity|].
  apply (transitions_join_levels 1 eigh_diagonal eigh_diagonal_contract
           H_diagonal 1).
  reflexivity.
Defined.

(** ** The cosine-amplitude dictionary *)

Lemma dict_total_insert_fresh (d : gmap Z R) k v :
  d !! k = None -> dict_total (<[k:=v]> d) = v + dict_total d.
Proof.
  intros Hk. unfold dict_total. apply map_fold_insert_L; [|exact Hk].
  intros. ring.
Qed.

Lemma dict_total_insert (d : gmap Z R) k v :
  dict_total (<[k:=v]> d) = dict_total d - default 0 (d !! k) + v.
Proof.
  destruct (d !! k) as [old|] eqn:Hk; simpl.
  - rewrite <- (insert_delete_eq d k v).
    rewrite <- (insert_delete_id d k old Hk) at 2.
    rewrite !dict_total_insert_fresh by apply lookup_delete_eq. ring.
  - rewrite dict_total_insert_fresh by exact Hk. ring.
Qed.

Section Cosine_amplitudes.
Variable hbar : R.
Variable eigh : ndarray complex -> result (list R * ndarray complex).
Hypothesis eigh_ok : eigh_contract eigh.

Lemma add_cosine_amplitude_Ok self fm acc ij :
  well_shaped self ->
  nrows fm = length (energies self) -> ncols fm = length (energies self) ->
  (forall i j, (i < length (energies self))%nat ->
               (j < length (energies self))%nat ->
               item fm i j = omega hbar self i j) ->
  (ij.1 < length (energies self))%nat ->
  (ij.2 < length (energies self))%nat ->
  add_cosine_amplitude self fm acc ij
  = Ok (<[bucket_of hbar self ij :=
           default 0 (acc !! bucket_of hbar self ij)
           + item (transition_amplitude_matrix self) ij.1 ij.2]> acc).
Proof.
  intros [Hr Hc] Hfr Hfc Hf Hi Hj. unfold add_cosine_amplitude, bucket_of.
  rewrite !nd_get_Ok by lia. step. rewrite Hf by assumption. reflexivity.
Qed.

Lemma for_each_add_cosine_amplitude self fm l acc :
  well_shaped self ->
  nrows fm = length (energies self) -> ncols fm = length (energies self) ->
  (forall i j, (i < length (energies self))%nat ->
               (j < length (energies self))%nat ->
               item fm i j = omega hbar self i j) ->
  (forall ij, In ij l -> (ij.1 < length (energies self))%nat /\
                         (ij.2 < length (energies self))%nat) ->
  exists acc', for_each (add_cosine_amplitude self fm) acc l = Ok acc' /\
    dict_total acc'
    = dict_total acc
      + Lsum (map (fun ij => item (transition_amplitude_matrix self) ij.1 ij.2) l)
    /\ (forall k, default 0 (acc' !! k)
                  = default 0 (acc !! k) + Lsum (map (share hbar self k) l))
    /\ (forall k, is_Some (acc' !! k) <->
                  is_Some (acc !! k) \/ exists ij, In ij l /\ bucket_of hbar self ij = k).
Proof.
  intros Hws Hfr Hfc Hf. revert acc.
  induction l as [|ij l IH]; intros acc Hl; simpl.
  - eexists; split; [reflexivity|]. split; [ring|]. split; [intros; ring|].
    intros k. split; [auto|]. intros [Hs | (ij & [] & _)]. exact Hs.
  - rewrite (add_cosine_amplitude_Ok self fm acc ij Hws Hfr Hfc Hf)
      by (apply Hl; left; reflexivity).
    step.
    destruct (IH (<[bucket_of hbar self ij :=
                     default 0 (acc !! bucket_of hbar self ij)
                     + item (transition_amplitude_matrix self) ij.1 ij.2]> acc))
      as (acc' & -> & Htot & Hval & Hdom);
      [intros ij' Hin; apply Hl; right; exact Hin|].
    eexists; split; [reflexivity|]. split; [|split].
    + rewrite Htot, dict_total_insert. ring.
    + intros k. rewrite Hval. unfold share at 2.
      destruct (decide (bucket_of hbar self ij = k)) as [<-|Hne].
      * rewrite lookup_insert_eq. simpl. ring.
      * rewrite lookup_insert_ne by exact Hne. ring.
    + intros k. rewrite Hdom. split.
      * intros [Hs | (ij' & Hin & Hb)].
        -- destruct (decide (bucket_of hbar self ij = k)) as [<-|Hne].
           ++ right. exists ij. split; [left; reflexivity | reflexivity].
           ++ rewrite lookup_insert_ne in Hs by exact Hne. left. exact Hs.
        -- right. exists ij'. split; [right; exact Hin | exact Hb].
      * intros [Hs | (ij' & [<- | Hin] & Hb)].
        -- left. destruct (decide (bucket_of hbar self ij = k)) as [<-|Hne].
           ++ rewrite lookup_insert_eq. eauto.
           ++ rewrite lookup_insert_ne by exact Hne. exact Hs.
        -- left. rewrite <- Hb, lookup_insert_eq. eauto.
        -- right. exists ij'. split; assumption.
Qed.

Lemma plot_cosine_amplitudes_Ok self :
  well_shaped self ->
  exists d, plot_cosine_amplitudes hbar self = Ok d /\
    dict_total d = sum_entries (transition_amplitude_matrix self)
    /\ (forall k, default 0 (d !! k)
                  = Rsum (length (energies self)) (fun i =>
                      Rsum (length (energies self)) (fun j =>
                        share hbar self k (i, j))))
    /\ (forall k, is_Some (d !! k) <->
                  exists i j, (i < length (energies self))%nat /\
                              (j < length (energies self))%nat /\
                              bucket_of hbar self (i, j) = k).
Proof.
  intros Hws. unfold plot_cosine_amplitudes.
  destruct (frequency_matrix_Ok hbar self) as (fm & -> & Hfr & Hfc & Hf). step.
  destruct (for_each_add_cosine_amplitude self fm
              (range2 (length (energies self))) ∅ Hws Hfr Hfc Hf)
    as (d & -> & Htot & Hval & Hdom).
  { intros [i j] Hin. apply In_range2 in Hin. exact Hin. }
  exists d. split; [reflexivity|]. split; [|split].
  - rewrite Htot. unfold dict_total at 1. rewrite map_fold_empty.
    rewrite Lsum_range2. destruct Hws as [Hr Hc].
    unfold sum_entries. rewrite Hr, Hc. simpl. ring.
  - intros k. rewrite Hval, lookup_empty, Lsum_range2. simpl. ring.
  - intros k. rewrite Hdom, lookup_empty. split.
    + intros [[x Hx] | ([i j] & Hin & Hb)]; [discriminate|].
      apply In_range2 in Hin as [Hi Hj]. exists i, j. auto.
    + intros (i & j & Hi & Hj & Hb). right. exists (i, j). split; [|exact Hb].
      unfold range2. apply in_flat_map. exists i.
      split; [apply in_seq; lia|]. apply in_map, in_seq. lia.
Qed.
End Cosine_amplitudes.

Lemma np_round_0 : np_round 0 = 0%Z.
Proof.
  unfold np_round.
  assert (Zfloor 0 = 0%Z) as -> by (apply Zfloor_eq; simpl; lra).
  simpl. destruct (decide (0 - 0 < 1 / 2)); [reflexivity | lra].
Qed.

Lemma np_round_nonneg x : 0 <= x -> (0 <= np_round x)%Z.
Proof.
  intros Hx. assert (0 <= Zfloor x)%Z as Hf by (apply Zfloor_lub; simpl; lra).
  unfold np_round. repeat destruct (decide _); try lia.
  destruct (Z.even _); lia.
Qed.

Lemma Rsum_le n f g :
  (forall k, (k < n)%nat -> f k <= g k) -> Rsum n f <= Rsum n g.
Proof.
  induction n as [|n IH]; intros Hfg; simpl; [lra|].
  apply Rplus_le_compat; [apply IH; intros; apply Hfg; lia | apply Hfg; lia].
Qed.

Lemma Rsum_nonneg n f :
  (forall k, (k < n)%nat -> 0 <= f k) -> 0 <= Rsum n f.
Proof.
  induction n as [|n IH]; intros Hf; simpl; [lra|].
  apply Rplus_le_le_0_compat; [apply IH; intros; apply Hf; lia | apply Hf; lia].
Qed.

Lemma Rsum_term_le n f i :
  (forall k, (k < n)%nat -> 0 <= f k) -> (i < n)%nat -> f i <= Rsum n f.
Proof.
  induction n as [|n IH]; intros Hf Hi; [lia|]. simpl.
  destruct (Nat.eq_dec i n) as [->|Hne].
  - pose proof (Rsum_nonneg n f ltac:(intros; apply Hf; lia)). lra.
  - pose proof (IH ltac:(intros; apply Hf; lia) ltac:(lia)).
    pose proof (Hf n ltac:(lia)). lra.
Qed.

Lemma spec_polarisation_0 hbar self :
  well_shaped self ->
  spec_polarisation hbar self 0 = sum_entries (transition_amplitude_matrix self).
Proof.
  intros [Hr Hc]. unfold spec_polarisation, sum_entries. rewrite Hr, Hc.
  apply Rsum_ext; intros i _. apply Rsum_ext; intros j _.
  rewrite Rmult_0_r, cos_0. ring.
Qed.

Section Cosine_amplitude_facts.
Variable hbar : R.
Variable eigh : ndarray complex -> result (list R * ndarray complex).
Hypothesis eigh_ok : eigh_contract eigh.

(** X11: nothing is lost in the bucketing: the amplitudes in the dictionary
    of [plot_cosine_amplitudes] add up to the sum of all entries of the
    amplitude matrix, which is the polarisation at time zero. *)
Theorem cosine_amplitudes_conserved H n m :
  Model_init hbar eigh H n = Ok m ->
  exists d, plot_cosine_amplitudes hbar m = Ok d /\
    dict_total d = sum_entries (transition_amplitude_matrix m) /\
    polarisation hbar m (Num 0) = Ok (Num (dict_total d)).
Proof.
  intros Hm. destruct (Model_init_shape hbar eigh eigh_ok H n m Hm) as (Hws & _).
  destruct (plot_cosine_amplitudes_Ok hbar m Hws) as (d & Hd & Htot & _).
  exists d. split; [exact Hd|]. split; [exact Htot|].
  rewrite polarisation_Num by exact Hws.
  rewrite spec_polarisation_0 by exact Hws. rewrite Htot. reflexivity.
Qed.

(** X12: the dictionary has a key exactly for each rounded frequency
    [round(ω[i][j])] that occurs, and the value under a key is the sum of
    [A[i][j]] over the index pairs with that rounded frequency ([get]
    returning 0 for a key that is absent). *)
Theorem cosine_amplitude_buckets H n m :
  Model_init hbar eigh H n = Ok m ->
  exists d, plot_cosine_amplitudes hbar m = Ok d /\
    forall k,
      (is_Some (d !! k) <->
       exists i j, (i < length (energies m))%nat /\
                   (j < length (energies m))%nat /\
                   np_round (omega hbar m i j) = k)
      /\ default 0 (d !! k)
         = Rsum (length (energies m)) (fun i =>
             Rsum (length (energies m)) (fun j =>
               if decide (np_round (omega hbar m i j) = k)
               then item (transition_amplitude_matrix m) i j else 0)).
Proof.
  intros Hm. destruct (Model_init_shape hbar eigh eigh_ok H n m Hm) as (Hws & _).
  destruct (plot_cosine_amplitudes_Ok hbar m Hws) as (d & Hd & _ & Hval & Hdom).
  exists d. split; [exact Hd|]. intros k. split; [apply Hdom | apply Hval].
Qed.

(** X13: the dictionary always has the key 0, and its value is at least the
    sum of the diagonal amplitudes [A[i][i]]: the constant part of the
    polarisation. *)
Theorem cosine_amplitude_zero_bucket H n m :
  Model_init hbar eigh H n = Ok m ->
  exists d v, plot_cosine_amplitudes hbar m = Ok d /\
    d !! 0%Z = Some v /\
    trace_entries (transition_amplitude_matrix m) <= v.
Proof.
  intros Hm.
  destruct (Model_init_shape hbar eigh eigh_ok H n m Hm) as (Hws & HN & Hd).
  destruct (plot_cosine_amplitudes_Ok hbar m Hws) as (d & Hpd & _ & Hval & Hdom).
  assert (forall i, bucket_of hbar m (i, i) = 0%Z) as Hdiag.
  { intros i. unfold bucket_of. simpl. rewrite omega_diagonal. apply np_round_0. }
  assert (0 < length (energies m))%nat as Hpos.
  { rewrite HN, Hd. pose proof (Nat.pow_nonzero 2 (Z.to_nat (n - 1))). lia. }
  destruct (proj2 (Hdom 0%Z)) as [v Hv].
  { exists O, O. auto. }
  exists d, v. split; [exact Hpd|]. split; [exact Hv|].
  specialize (Hval 0%Z). rewrite Hv in Hval. simpl in Hval. rewrite Hval.
  unfold trace_entries. destruct Hws as [Hr Hc]. rewrite Hr.
  apply Rsum_le. intros i Hi.
  assert (forall j, (j < length (energies m))%nat ->
            0 <= share hbar m 0 (i, j)) as Hnn.
  { intros j Hj. unfold share. destruct (decide _); [|lra].
    apply (Model_init_amplitudes_nonneg hbar eigh eigh_ok H n m); assumption. }
  eapply Rle_trans; [|apply (Rsum_term_le _ _ i Hnn Hi)].
  unfold share. rewrite Hdiag. destruct (decide (0%Z = 0%Z)); [|congruence].
  simpl. lra.
Qed.

(** X14: with [ħ > 0] no bucket sits at a negative frequency: every key of
    the dictionary is at least 0. *)
Theorem cosine_amplitude_keys_nonneg H n m :
  0 < hbar ->
  Model_init hbar eigh H n = Ok m ->
  exists d, plot_cosine_amplitudes hbar m = Ok d /\
    forall k, is_Some (d !! k) -> (0 <= k)%Z.
Proof.
  intros Hh Hm.
  destruct (Model_init_shape hbar eigh eigh_ok H n m Hm) as (Hws & _).
  destruct (plot_cosine_amplitudes_Ok hbar m Hws) as (d & Hpd & _ & _ & Hdom).
  exists d. split; [exact Hpd|]. intros k Hk.
  apply Hdom in Hk as (i & j & _ & _ & <-).
  apply np_round_nonneg. unfold omega.
  apply Rmult_le_pos; [apply Rabs_pos | left; apply Rinv_0_lt_compat; exact Hh].
Qed.
End Cosine_amplitude_facts.

Lemma cosine_amplitudes_conserved_witness :
  eigh_contract eigh_diagonal /\
  exists m, Model_init 1 eigh_diagonal H_diagonal 1 = Ok m /\
    exists d, plot_cosine_amplitudes 1 m = Ok d /\
      dict_total d = sum_entries (transition_amplitude_matrix m) /\
      polarisation 1 m (Num 0) = Ok (Num (dict_total d)).
Proof.
  split; [exact eigh_diagonal_contract|].
  eexists. split; [reflexivity|].
  apply (cosine_amplitudes_conserved 1 eigh_diagonal eigh_diagonal_contract
           H_diagonal 1).
  reflexivity.
Defined.

Lemma cosine_amplitude_buckets_witness :
  eigh_contract eigh_diagonal /\
  exists m, Model_init 1 eigh_diagonal H_diagonal 1 = Ok m /\
    exists d, plot_cosine_amplitudes 1 m = Ok d /\
      forall k,
        (is_Some (d !! k) <->
         exists i j, (i < length (energies m))%nat /\
                     (j < length (energies m))%nat /\
                     np_round (omega 1 m i j) = k)
        /\ default 0 (d !! k)
           = Rsum (length (energies m)) (fun i =>
               Rsum (length (energies m)) (fun j =>
                 if decide (np_round (omega 1 m i j) = k)
                 then item (transition_amplitude_matrix m) i j else 0)).
Proof.
  split; [exact eigh_diagonal_contract|].
  eexists. split; [reflexivity|].
  apply (cosine_amplitude_buckets 1 eigh_diagonal eigh_diagonal_contract
           H_diagonal 1).
  reflexivity.
Defined.

Lemma cosine_amplitude_zero_bucket_witness :
  eigh_contract eigh_diagonal /\
  exists m, Model_init 1 eigh_diagonal H_diagonal 1 = Ok m /\
    exists d v, plot_cosine_amplitudes 1 m = Ok d /\
      d !! 0%Z = Some v /\
      trace_entries (transition_amplitude_matrix m) <= v.
Proof.
  split; [exact eigh_diagonal_contract|].
  eexists. split; [reflexivity|].
  apply (cosine_amplitude_zero_bucket 1 eigh_diagonal eigh_diagonal_contract
           H_diagonal 1).
  reflexivity.
Defined.

Lemma cosine_amplitude_keys_nonneg_witness :
  eigh_contract eigh_diagonal /\ 0 < 1 /\
  exists m, Model_init 1 eigh_diagonal H_diagonal 1 = Ok m /\
    exists d, plot_cosine_amplitudes 1 m = Ok d /\
      forall k, is_Some (d !! k) -> (0 <= k)%Z.
Proof.
  split; [exact eigh_diagonal_contract|]. split; [lra|].
  eexists. split; [reflexivity|].
  apply (cosine_amplitude_keys_nonneg 1 eigh_diagonal eigh_diagonal_contract
           H_diagonal 1); [lra | reflexivity].
Defined.

(** ** The header line of [print_details] *)

Lemma up_down_distinct : up_arrow <> down_arrow.
Proof. discriminate. Qed.

Lemma land_bit_zero i j :
  (0 <= j)%Z ->
  (Z.land i (Z.shiftl 1 j) =? 0)%Z = negb (Z.testbit i j).
Proof.
  intros Hj. rewrite Z.shiftl_1_l.
  destruct (Z.testbit i j) eqn:Hb; simpl.
  - apply Z.eqb_neq. intros Hz.
    assert (Z.testbit (Z.land i (2 ^ j)) j = true) as Ht
      by (rewrite Z.land_spec, Hb, Z.pow2_bits_true by lia; reflexivity).
    rewrite Hz, Z.bits_0 in Ht. discriminate.
  - apply Z.eqb_eq. apply Z.bits_inj'. intros k Hk.
    rewrite Z.land_spec, Z.bits_0.
    destruct (Z.eq_dec j k) as [<-|Hne].
    + rewrite Hb. reflexivity.
    + rewrite Z.pow2_bits_false by lia. apply andb_false_r.
Qed.

Lemma In_range_down n j : In j (range_down n) <-> (0 <= j < n)%Z.
Proof.
  unfold range_down. rewrite in_map_iff. split.
  - intros (k & <- & Hk). apply in_rev, in_seq in Hk. lia.
  - intros Hj. exists (Z.to_nat j). split; [lia|].
    apply in_rev. rewrite rev_involutive. apply in_seq. lia.
Qed.

Lemma arrows_length n i : length (arrows n i) = Z.to_nat n.
Proof.
  unfold arrows, range_down. rewrite !length_map, length_rev, length_seq.
  reflexivity.
Qed.

Lemma arrows_injective n i i' :
  (i < 2 ^ Z.to_nat n)%nat -> (i' < 2 ^ Z.to_nat n)%nat ->
  arrows n i = arrows n i' -> i = i'.
Proof.
  intros Hi Hi' Heq. unfold arrows in Heq.
  rewrite map_ext_in_iff in Heq.
  assert (forall j, (0 <= j < n)%Z ->
            Z.testbit (Z.of_nat i) j = Z.testbit (Z.of_nat i') j) as Hbits.
  { intros j Hj. specialize (Heq j (proj2 (In_range_down n j) Hj)).
    rewrite !land_bit_zero in Heq by lia.
    destruct (Z.testbit (Z.of_nat i) j), (Z.testbit (Z.of_nat i') j);
      simpl in Heq; try reflexivity;
      [symmetry in Heq|]; apply up_down_distinct in Heq; contradiction. }
  apply Nat2Z.inj. apply Z.bits_inj'. intros j Hj.
  destruct (Z.lt_ge_cases j n) as [Hlt|Hge]; [apply Hbits; lia|].
  assert (forall x, (x < 2 ^ Z.to_nat n)%nat -> Z.testbit (Z.of_nat x) j = false)
    as Hhigh.
  { intros x Hx. destruct (Nat.eq_dec x O) as [->|Hx0]; [apply Z.bits_0|].
    apply Z.bits_above_log2; [lia|].
    apply Z.log2_lt_pow2; [lia|].
    apply Z.lt_le_trans with (Z.of_nat (2 ^ Z.to_nat n)); [lia|].
    rewrite Nat2Z.inj_pow. change (Z.of_nat 2) with 2%Z.
    apply Z.pow_le_mono_r; lia. }
  rewrite !Hhigh by assumption. reflexivity.
Qed.

Section Header.
Variable hbar : R.
Variable eigh : ndarray complex -> result (list R * ndarray complex).
Hypothesis eigh_ok : eigh_contract eigh.

(** X15: for a model constructed with particle count [n >= 1] the header
    line is printed without error: one cell per basis state, each of [n]
    arrows and a bar, then a newline; and two different basis states never
    get the same arrows. *)
Theorem print_details_header_labels H n m :
  (1 <= n)%Z ->
  Model_init hbar eigh H n = Ok m ->
  print_details_header m
  = Ok (flat_map (fun i => arrows n i ++ ["|"%string])
                 (seq 0 (length (energies m))) ++ [newline])
  /\ (forall i, length (arrows n i) = Z.to_nat n)
  /\ (forall i i', (i < length (energies m))%nat ->
                   (i' < length (energies m))%nat ->
                   arrows n i = arrows n i' -> i = i').
Proof.
  intros Hn Hm.
  destruct (Model_init_shape hbar eigh eigh_ok H n m Hm) as (_ & HN & Hd).
  rewrite two_pow_particles in Hd by exact Hn.
  assert (length (energies m) = (2 ^ Z.to_nat n)%nat) as Hlen by congruence.
  split; [|split].
  - unfold print_details_header, print_details_particle_count. rewrite Hlen.
    pose proof (Nat.pow_nonzero 2 (Z.to_nat n)) as Hnz.
    destruct (Nat.eqb_spec (2 ^ Z.to_nat n) 0); [lia|]. step.
    rewrite Nat2Z.inj_pow, Z2Nat.id, Z.log2_pow2 by lia. reflexivity.
  - intros i. apply arrows_length.
  - intros i i' Hi Hi'. rewrite Hlen in Hi, Hi'. apply arrows_injective; assumption.
Qed.
End Header.

Lemma print_details_header_labels_witness :
  eigh_contract eigh_diagonal /\ (1 <= 1)%Z /\
  exists m, Model_init 1 eigh_diagonal H_diagonal 1 = Ok m /\
    print_details_header m
    = Ok (flat_map (fun i => arrows 1 i ++ ["|"%string])
                   (seq 0 (length (energies m))) ++ [newline])
    /\ (forall i, length (arrows 1 i) = Z.to_nat 1)
    /\ (forall i i', (i < length (energies m))%nat ->
                     (i' < length (energies m))%nat ->
                     arrows 1 i = arrows 1 i' -> i = i').
Proof.
  assert (1 <= 1)%Z as Hn by lia.
  split; [exact eigh_diagonal_contract|]. split; [exact Hn|].
  eexists. split; [reflexivity|].
  apply (print_details_header_labels 1 eigh_diagonal eigh_diagonal_contract
           H_diagonal 1 _ Hn).
  reflexivity.
Defined.

(** The header of the two-level model: up, bar, down, bar, newline. *)
Example two_level_header :
  exists m, Model_init 1 eigh_diagonal H_diagonal 1 = Ok m /\
    print_details_header m
    = Ok [up_arrow; "|"%string; down_arrow; "|"%string; newline].
Proof. eexists. split; reflexivity. Qed.

(** ** The script, end to end *)

(** X16: the module-level script runs: for every real [ħ] and [μ0] and every
    eigensolver meeting the interface, [m = Model(H, 3)] is constructed, has
    8 energies, [print_details] infers 3 particles from it, and
    [m.polarisation(ts)] returns one value per entry of the time array. *)
Theorem script_model_runs hbar mu_0 eigh :
  eigh_contract eigh ->
  exists model, m hbar mu_0 eigh = Ok model /\
    length (energies model) = 8%nat /\
    print_details_particle_count model = Ok 3%Z /\
    forall ts, exists ds,
      polarisation hbar model (Arr ts) = Ok (Arr ds) /\ length ds = length ts.
Proof.
  intros Hc. unfold m.
  destruct (H_value hbar mu_0) as (v & -> & h & -> & Hh & HH). step.
  pose proof (Hermitian_square h HH) as Hsq.
  destruct (eigh_square eigh Hc h Hsq) as (w & Mv & He & Hw & HMr & HMc).
  destruct (Model_init_eigh_Ok hbar eigh h 3 w Mv He)
    as (model & Hm & Hen & _ & _ & Hr & Hcn & _).
  { rewrite HMr, Hh. reflexivity. }
  exists model. split; [exact Hm|].
  assert (length (energies model) = 8%nat) as Hlen by congruence.
  split; [exact Hlen|]. split.
  - unfold print_details_particle_count. rewrite Hlen. reflexivity.
  - intros ts. eexists. split.
    + apply polarisation_Arr; [split; congruence | lia].
    + apply length_map.
Qed.

Lemma script_model_runs_witness :
  eigh_contract eigh_diagonal /\
  exists model, m 1 1 eigh_diagonal = Ok model /\
    length (energies model) = 8%nat /\
    print_details_particle_count model = Ok 3%Z /\
    forall ts, exists ds,
      polarisation 1 model (Arr ts) = Ok (Arr ds) /\ length ds = length ts.
Proof.
  split; [exact eigh_diagonal_contract|].
  exact (script_model_runs 1 1 eigh_diagonal eigh_diagonal_contract).
Defined.

(** ** Normalisation *)

Lemma mm_ext N f f' g g' :
  eqN N f f' -> eqN N g g' -> eqN N (mm N f g) (mm N f' g').
Proof.
  intros Hf Hg i j Hi Hj. unfold mm. apply c_sum_ext; intros k Hk.
  rewrite Hf, Hg by assumption. reflexivity.
Qed.

Lemma eqN_refl N f : eqN N f f.
Proof. intros i j _ _. reflexivity. Qed.

Lemma mm_assoc N f g h i j :
  mm N (mm N f g) h i j = mm N f (mm N g h) i j.
Proof.
  unfold mm.
  rewrite (c_sum_ext _ _ (fun l => c_sum N (fun k =>
             c_mul (c_mul (f i k) (g k l)) (h l j))))
    by (intros; apply c_sum_mul_r).
  rewrite c_sum_swap. apply c_sum_ext; intros k _.
  rewrite c_sum_mul_l. apply c_sum_ext; intros l _. c_ring.
Qed.

Lemma tr_ext N f g : eqN N f g -> tr N f = tr N g.
Proof. intros Hfg. apply c_sum_ext; intros i Hi. apply Hfg; exact Hi. Qed.

Lemma tr_cyclic N f g : tr N (mm N f g) = tr N (mm N g f).
Proof.
  unfold tr, mm. rewrite c_sum_swap.
  apply c_sum_ext; intros k _. apply c_sum_ext; intros i _. apply c_mul_comm.
Qed.

Lemma c_sum_delta N j (g : nat -> complex) :
  (j < N)%nat -> c_sum N (fun k => c_mul (idf j k) (g k)) = g j.
Proof.
  induction N as [|N IH]; intros Hj; [lia|]. simpl.
  destruct (Nat.eq_dec j N) as [->|Hne].
  - rewrite (c_sum_ext _ _ (fun _ => RtoC 0)).
    + rewrite c_sum_zero. unfold idf. rewrite Nat.eqb_refl. c_ring.
    + intros k Hk. unfold idf.
      destruct (Nat.eqb_spec N k); [lia | c_ring].
  - rewrite IH by lia. unfold idf.
    destruct (Nat.eqb_spec j N); [lia | c_ring].
Qed.

Lemma mm_id_l N g : eqN N (mm N idf g) g.
Proof. intros i j Hi _. unfold mm. apply (c_sum_delta N i (fun k => g k j) Hi). Qed.

Lemma adjf_mm N f g i j : adjf (mm N f g) i j = mm N (adjf g) (adjf f) i j.
Proof.
  unfold adjf, mm. rewrite c_sum_conj. apply c_sum_ext; intros k _.
  rewrite c_conj_mul. apply c_mul_comm.
Qed.

Lemma c_sum_RtoC n (f : nat -> R) :
  c_sum n (fun k => RtoC (f k)) = RtoC (Rsum n f).
Proof. induction n as [|n IH]; simpl; [reflexivity|]. rewrite IH. c_ring. Qed.

Lemma c_mul_conj_abs z : c_mul z (c_conj z) = RtoC (c_abs z ^ 2).
Proof. rewrite c_abs_sqr. c_ring. Qed.

Lemma frob_tr N f : RtoC (frob N N f) = tr N (mm N f (adjf f)).
Proof.
  unfold frob, tr, mm, adjf. rewrite <- c_sum_RtoC.
  apply c_sum_ext; intros i _. rewrite <- c_sum_RtoC.
  apply c_sum_ext; intros j _. symmetry. apply c_mul_conj_abs.
Qed.

(** Cancelling [M @ adj(M)] in the middle of a product. *)
Lemma cancel_unitary N U F Y :
  eqN N (mm N U (adjf U)) idf ->
  tr N (mm N F (mm N U (mm N (adjf U) Y))) = tr N (mm N F Y).
Proof.
  intros HU. apply tr_ext, mm_ext; [apply eqN_refl|].
  intros i j Hi Hj. rewrite <- mm_assoc.
  rewrite (mm_ext N _ idf Y Y HU (eqN_refl N Y) i j Hi Hj).
  apply mm_id_l; assumption.
Qed.

Lemma mm_assoc_fun N f g h : mm N (mm N f g) h = mm N f (mm N g h).
Proof.
  apply functional_extensionality; intros i.
  apply functional_extensionality; intros j. apply mm_assoc.
Qed.

Lemma adjf_mm_fun N f g : adjf (mm N f g) = mm N (adjf g) (adjf f).
Proof.
  apply functional_extensionality; intros i.
  apply functional_extensionality; intros j. apply adjf_mm.
Qed.

Lemma adjf_adjf f : adjf (adjf f) = f.
Proof.
  apply functional_extensionality; intros i.
  apply functional_extensionality; intros j. apply c_conj_conj.
Qed.

(** With [U U† = 1], rotating by [U] keeps the Frobenius norm. *)
Lemma frob_rotated N U T :
  eqN N (mm N U (adjf U)) idf ->
  frob N N (mm N (mm N (adjf U) T) U) = frob N N T.
Proof.
  intros HU.
  assert (RtoC (frob N N (mm N (mm N (adjf U) T) U)) = RtoC (frob N N T)) as Heq;
    [|injection Heq; auto].
  rewrite !frob_tr, !adjf_mm_fun, adjf_adjf.
  rewrite (mm_assoc_fun N (mm N (adjf U) T) U).
  rewrite cancel_unitary by exact HU.
  rewrite tr_cyclic, mm_assoc_fun, cancel_unitary by exact HU.
  apply tr_cyclic.
Qed.

Lemma Rsum_app m q g :
  Rsum (m + q) g = Rsum m g + Rsum q (fun b => g (m + b)%nat).
Proof.
  induction q as [|q IH]; simpl.
  - rewrite Nat.add_0_r. ring.
  - rewrite Nat.add_succ_r. simpl. rewrite IH. ring.
Qed.

Lemma Rsum_prod_index p q (f : nat -> nat -> R) :
  Rsum (p * q) (fun i => f (i / q)%nat (i mod q)%nat)
  = Rsum p (fun a => Rsum q (fun b => f a b)).
Proof.
  induction p as [|p IH]; [reflexivity|].
  simpl. rewrite Nat.add_comm, Rsum_app, IH. f_equal.
  apply Rsum_ext; intros b Hb.
  assert (q <> 0)%nat as Hq by lia.
  rewrite Nat.div_add_l, Nat.div_small, Nat.add_0_r by assumption.
  rewrite Nat.add_comm, Nat.Div0.mod_add, Nat.mod_small by assumption.
  reflexivity.
Qed.

Lemma Rsum_lin n a b f g :
  Rsum n (fun k => a * f k + b * g k) = a * Rsum n f + b * Rsum n g.
Proof. induction n as [|n IH]; simpl; [ring|]. rewrite IH. ring. Qed.

Lemma Rsum_scal_l n c f : Rsum n (fun k => c * f k) = c * Rsum n f.
Proof. induction n as [|n IH]; simpl; [ring|]. rewrite IH. ring. Qed.

Lemma Rsum_scal_r n c f : Rsum n (fun k => f k * c) = Rsum n f * c.
Proof. induction n as [|n IH]; simpl; [ring|]. rewrite IH. ring. Qed.

Lemma frob_kron a b : frob_nd (np_kron a b) = frob_nd a * frob_nd b.
Proof.
  unfold frob_nd, frob. cbn [nrows ncols item np_kron].
  pose proof (Rsum_prod_index (nrows a) (nrows b)
    (fun i1 i2 => Rsum (ncols a * ncols b) (fun j =>
       c_abs (item a i1 (j / ncols b)) ^ 2
       * c_abs (item b i2 (j mod ncols b)) ^ 2))) as Hrows.
  cbv beta in Hrows.
  etransitivity; [|etransitivity; [exact Hrows|]].
  - apply Rsum_ext; intros i _. apply Rsum_ext; intros j _.
    rewrite c_abs_mul, Rpow_mult_distr. reflexivity.
  - rewrite <- Rsum_scal_r. apply Rsum_ext; intros i1 _.
    rewrite <- Rsum_scal_l. apply Rsum_ext; intros i2 _.
    pose proof (Rsum_prod_index (ncols a) (ncols b)
      (fun j1 j2 => c_abs (item a i1 j1) ^ 2 * c_abs (item b i2 j2) ^ 2))
      as Hcols.
    cbv beta in Hcols. rewrite Hcols.
    rewrite <- Rsum_scal_r. apply Rsum_ext; intros j1 _.
    apply Rsum_scal_l.
Qed.

Lemma frob_I_2 : frob_nd I_2 = 2.
Proof. unfold frob_nd, frob. cbn -[pow c_abs]. rewrite !c_abs_sqr. simpl. ring. Qed.

Lemma frob_sigma_x : frob_nd sigma_x = 2.
Proof. unfold frob_nd, frob. cbn -[pow c_abs]. rewrite !c_abs_sqr. simpl. ring. Qed.

Lemma frob_sigma_z : frob_nd sigma_z = 2.
Proof. unfold frob_nd, frob. cbn -[pow c_abs]. rewrite !c_abs_sqr. simpl. ring. Qed.

Lemma frob_kron_repeat k op :
  frob_nd (fold_left np_kron (repeat I_2 k) op) = frob_nd op * 2 ^ k.
Proof.
  revert op. induction k as [|k IH]; intros op; simpl; [ring|].
  rewrite IH, frob_kron, frob_I_2. ring.
Qed.

Lemma powerRZ_2_particles n :
  (1 <= n)%Z -> powerRZ 2 n = 2 * 2 ^ Z.to_nat (n - 1).
Proof.
  intros Hn. replace n with (Z.of_nat (S (Z.to_nat (n - 1)))) at 1 by lia.
  rewrite <- pow_powerRZ. reflexivity.
Qed.

Section Normalisation.
Variable hbar : R.
Variable eigh : ndarray complex -> result (list R * ndarray complex).
Hypothesis eigh_ok : eigh_contract eigh.

(** The squared moduli of a rotated operator add up to those of the
    operator. *)
Lemma frob_rotated_nd Mv T N :
  nrows Mv = N -> ncols Mv = N -> nrows T = N -> ncols T = N ->
  unitary Mv ->
  Rsum N (fun i => Rsum N (fun j => c_abs (rotated Mv T i j) ^ 2)) = frob_nd T.
Proof.
  intros Hr Hc HTr HTc (p & Hp & Hpr & Hpc & Hpe).
  unfold matmul in Hp. simpl in Hp.
  rewrite Nat.eqb_refl in Hp. injection Hp as <-. simpl in Hpr, Hpc, Hpe.
  unfold frob_nd. rewrite HTr, HTc.
  rewrite <- (frob_rotated N (item Mv) (item T)).
  - unfold frob, rotated, mm, adjf. rewrite HTc, Hr. reflexivity.
  - intros i j Hi Hj. unfold idf. rewrite <- Hpe by lia.
    unfold mm, adjf. rewrite Hc. reflexivity.
Qed.

(** X17: with orthonormal eigenvectors the amplitudes are normalised.  For a
    particle count [n >= 1], if the eigenvector matrix [M] of a constructed
    model satisfies [M @ adj(M) = 1], the entries of its amplitude matrix add
    up to 1; so the polarisation is 1 at time zero and stays within
    [-1, 1] at every time. *)
Theorem amplitudes_sum_to_one H n m :
  (1 <= n)%Z ->
  Model_init hbar eigh H n = Ok m ->
  unitary (M m) ->
  sum_entries (transition_amplitude_matrix m) = 1 /\
  polarisation hbar m (Num 0) = Ok (Num 1) /\
  forall t, exists D, polarisation hbar m (Num t) = Ok (Num D) /\ Rabs D <= 1.
Proof.
  intros Hn Hm HU.
  destruct (Model_init_shape hbar eigh eigh_ok H n m Hm) as (Hws & HN & Hd).
  destruct (Model_init_Ok_inv _ _ _ _ _ Hm)
    as (w & Mv & He & HMr & Hw & HM & _ & Hr & Hc & HA).
  destruct (eigh_Ok_shape eigh H w Mv eigh_ok He) as (_ & _ & HMr' & HMc').
  rewrite HM in HU.
  set (N := (2 * 2 ^ Z.to_nat (n - 1))%nat) in *.
  assert (ncols Mv = N) as HMc by congruence.
  assert (sum_entries (transition_amplitude_matrix m) = 1) as Hsum.
  { unfold sum_entries. rewrite Hr, Hc, HMc.
    rewrite (Rsum_ext N _ (fun i =>
      (2 / 3 / powerRZ 2 n)
        * Rsum N (fun j => c_abs (rotated Mv (tensorProduct_first sigma_x n) i j) ^ 2)
      + (1 / 3 / powerRZ 2 n)
        * Rsum N (fun j => c_abs (rotated Mv (tensorProduct_first sigma_z n) i j) ^ 2))).
    2:{ intros i Hi. rewrite <- Rsum_lin. apply Rsum_ext; intros j Hj.
        rewrite HA by congruence. unfold stored_amplitude.
        pose proof (powerRZ_2_pos n). field. lra. }
    rewrite Rsum_lin.
    rewrite !(frob_rotated_nd Mv _ N HMr HMc)
      by first [ assumption
               | rewrite tensorProduct_first_nrows; reflexivity
               | rewrite tensorProduct_first_ncols; reflexivity ].
    unfold tensorProduct_first.
    rewrite !frob_kron_repeat, frob_sigma_x, frob_sigma_z.
    rewrite powerRZ_2_particles by exact Hn.
    pose proof (pow_lt 2 (Z.to_nat (n - 1)) ltac:(lra)). field. lra. }
  split; [exact Hsum|].
  assert (spec_polarisation hbar m 0 = 1) as H0
    by (rewrite spec_polarisation_0, Hsum by exact Hws; reflexivity).
  split.
  - rewrite polarisation_Num, H0 by exact Hws. reflexivity.
  - intros t. exists (spec_polarisation hbar m t).
    split; [apply polarisation_Num; exact Hws|].
    rewrite <- H0. apply (spec_polarisation_bound hbar eigh eigh_ok H n m t Hm).
Qed.
End Normalisation.

Lemma np_eye_2_unitary : unitary (np_eye 2).
Proof.
  eexists. split; [reflexivity|].
  unfold nd_eq. simpl. repeat split.
  intros i j Hi Hj.
  destruct (lt_2_cases i Hi) as [-> | ->];
    destruct (lt_2_cases j Hj) as [-> | ->]; c_ring.
Qed.

Lemma amplitudes_sum_to_one_witness :
  eigh_contract eigh_diagonal /\ (1 <= 1)%Z /\
  exists m, Model_init 1 eigh_diagonal H_diagonal 1 = Ok m /\
    unitary (M m) /\
    sum_entries (transition_amplitude_matrix m) = 1 /\
    polarisation 1 m (Num 0) = Ok (Num 1) /\
    forall t, exists D, polarisation 1 m (Num t) = Ok (Num D) /\ Rabs D <= 1.
Proof.
  assert (1 <= 1)%Z as Hn by lia.
  split; [exact eigh_diagonal_contract|]. split; [exact Hn|].
  eexists. split; [reflexivity|]. split; [exact np_eye_2_unitary|].
  apply (amplitudes_sum_to_one 1 eigh_diagonal eigh_diagonal_contract
           H_diagonal 1 _ Hn); [reflexivity | exact np_eye_2_unitary].
Defined.

(** ** The dictionary as a spectrum *)

Lemma dict_weighted_insert_fresh phi (d : gmap Z R) k v :
  d !! k = None -> dict_weighted phi (<[k:=v]> d) = v * phi k + dict_weighted phi d.
Proof.
  intros Hk. unfold dict_weighted.
  apply (map_fold_insert_L (fun k v acc => v * phi k + acc)); [|exact Hk].
  intros. ring.
Qed.

Lemma dict_weighted_insert phi (d : gmap Z R) k v :
  dict_weighted phi (<[k:=v]> d)
  = dict_weighted phi d - default 0 (d !! k) * phi k + v * phi k.
Proof.
  destruct (d !! k) as [old|] eqn:Hk; simpl.
  - rewrite <- (insert_delete_eq d k v).
    rewrite <- (insert_delete_id d k old Hk) at 2.
    rewrite !dict_weighted_insert_fresh by apply lookup_delete_eq. ring.
  - rewrite dict_weighted_insert_fresh by exact Hk. ring.
Qed.

Section Spectrum.
Variable hbar : R.
Variable eigh : ndarray complex -> result (list R * ndarray complex).
Hypothesis eigh_ok : eigh_contract eigh.

Lemma for_each_weighted phi self fm l acc :
  well_shaped self ->
  nrows fm = length (energies self) -> ncols fm = length (energies self) ->
  (forall i j, (i < length (energies self))%nat ->
               (j < length (energies self))%nat ->
               item fm i j = omega hbar self i j) ->
  (forall ij, In ij l -> (ij.1 < length (energies self))%nat /\
                         (ij.2 < length (energies self))%nat) ->
  exists acc', for_each (add_cosine_amplitude self fm) acc l = Ok acc' /\
    dict_weighted phi acc'
    = dict_weighted phi acc
      + Lsum (map (fun ij => item (transition_amplitude_matrix self) ij.1 ij.2
                             * phi (bucket_of hbar self ij)) l).
Proof.
  intros Hws Hfr Hfc Hf. revert acc.
  induction l as [|ij l IH]; intros acc Hl; simpl.
  - eexists; split; [reflexivity|]. ring.
  - rewrite (add_cosine_amplitude_Ok hbar self fm acc ij Hws Hfr Hfc Hf)
      by (apply Hl; left; reflexivity).
    step.
    destruct (IH (<[bucket_of hbar self ij :=
                     default 0 (acc !! bucket_of hbar self ij)
                     + item (transition_amplitude_matrix self) ij.1 ij.2]> acc))
      as (acc' & -> & Hw);
      [intros ij' Hin; apply Hl; right; exact Hin|].
    eexists; split; [reflexivity|].
    rewrite Hw, dict_weighted_insert. ring.
Qed.

(** X19: the dictionary is the spectrum of the signal with rounded
    frequencies: at every time [t], the sum over its keys [k] of
    [value·cos(k·t)] equals the double sum of [A[i][j]·cos(round(ω[i][j])·t)].
    When no frequency is changed by the rounding, that sum is the
    polarisation itself. *)
Theorem cosine_amplitudes_spectrum H n m :
  Model_init hbar eigh H n = Ok m ->
  exists d, plot_cosine_amplitudes hbar m = Ok d /\
    forall t,
      dict_weighted (fun k => cos (IZR k * t)) d
      = Rsum (length (energies m)) (fun i =>
          Rsum (length (energies m)) (fun j =>
            item (transition_amplitude_matrix m) i j
            * cos (IZR (np_round (omega hbar m i j)) * t)))
      /\ ((forall i j, (i < length (energies m))%nat ->
                       (j < length (energies m))%nat ->
                       IZR (np_round (omega hbar m i j)) = omega hbar m i j) ->
          polarisation hbar m (Num t)
          = Ok (Num (dict_weighted (fun k => cos (IZR k * t)) d))).
Proof.
  intros Hm. destruct (Model_init_shape hbar eigh eigh_ok H n m Hm) as (Hws & _).
  assert (exists d, plot_cosine_amplitudes hbar m = Ok d /\
            forall phi, dict_weighted phi d
              = Rsum (length (energies m)) (fun i =>
                  Rsum (length (energies m)) (fun j =>
                    item (transition_amplitude_matrix m) i j
                    * phi (np_round (omega hbar m i j))))) as (d & Hd & Hw).
  { unfold plot_cosine_amplitudes.
    destruct (frequency_matrix_Ok hbar m) as (fm & -> & Hfr & Hfc & Hf). step.
    destruct (for_each_add_cosine_amplitude hbar m fm
                (range2 (length (energies m))) ∅ Hws Hfr Hfc Hf)
      as (d & Hd & _).
    { intros [i j] Hin. apply In_range2 in Hin. exact Hin. }
    exists d. split; [exact Hd|]. intros phi.
    destruct (for_each_weighted phi m fm (range2 (length (energies m))) ∅
                Hws Hfr Hfc Hf) as (d' & Hd' & Hw).
    { intros [i j] Hin. apply In_range2 in Hin. exact Hin. }
    rewrite Hd in Hd'. injection Hd' as <-.
    rewrite Hw. unfold dict_weighted at 1. rewrite map_fold_empty.
    rewrite Lsum_range2. unfold bucket_of. simpl. ring. }
  exists d. split; [exact Hd|]. intros t. split; [apply Hw|].
  intros Hexact. rewrite polarisation_Num by exact Hws.
  do 2 f_equal. rewrite Hw. unfold spec_polarisation.
  apply Rsum_ext; intros i Hi. apply Rsum_ext; intros j Hj.
  rewrite Hexact by assumption. reflexivity.
Qed.

(** X18: a fully degenerate spectrum gives a flat signal.  If all energies
    of a constructed model are equal, its polarisation is the same at
    every time, its transition set is empty, and it has a single frequency
    level. *)
Theorem degenerate_spectrum_is_flat H n m :
  Model_init hbar eigh H n = Ok m ->
  (forall i j, (i < length (energies m))%nat -> (j < length (energies m))%nat ->
     nth i (energies m) 0 = nth j (energies m) 0) ->
  (forall t, polarisation hbar m (Num t) = polarisation hbar m (Num 0)) /\
  exists d, plot_energy_levels hbar m = Ok d /\
    transitions d = ∅ /\
    frequency_levels d = {[ np_round (nth 0 (energies m) 0 / hbar) ]}.
Proof.
  intros Hm Hdeg.
  destruct (Model_init_shape hbar eigh eigh_ok H n m Hm) as (Hws & HN & Hd).
  assert (0 < length (energies m))%nat as Hpos.
  { rewrite HN, Hd. pose proof (Nat.pow_nonzero 2 (Z.to_nat (n - 1))). lia. }
  split.
  - intros t. rewrite !polarisation_Num by exact Hws. do 2 f_equal.
    unfold spec_polarisation.
    apply Rsum_ext; intros i Hi. apply Rsum_ext; intros j Hj.
    unfold omega. rewrite (Hdeg i j Hi Hj), Rminus_diag, Rabs_R0.
    unfold Rdiv. rewrite !Rmult_0_l. reflexivity.
  - destruct (plot_energy_levels_Ok hbar m Hws) as (d & Hpd & Hrf & Hlev & Ht).
    exists d. split; [exact Hpd|].
    assert (forall k, (k < length (energies m))%nat ->
              nth k (plot_rounded_frequencies d) 0%Z
              = np_round (nth 0 (energies m) 0 / hbar)) as Hall.
    { intros k Hk. rewrite Hrf.
      rewrite (nth_indep _ 0%Z (np_round (0 / hbar)))
        by (rewrite length_map; exact Hk).
      rewrite (map_nth (fun e => np_round (e / hbar))).
      rewrite (Hdeg k O Hk Hpos). reflexivity. }
    split.
    + apply set_eq. intros ab. split; [|intros Hin; apply not_elem_of_empty in Hin; contradiction].
      intros Hin. apply Ht in Hin as ([i j] & Hin & _ & Hc & Hne).
      apply In_range2 in Hin as [Hi Hj]. simpl in Hc.
      rewrite (Hall i Hi), (Hall j Hj) in Hc.
      unfold canonical in Hc. destruct (decide _); subst ab; simpl in Hne;
        contradiction.
    + rewrite Hlev. apply set_eq. intros f.
      rewrite elem_of_list_to_set, elem_of_singleton, list_elem_of_In. split.
      * intros Hin. apply (In_nth _ _ 0%Z) in Hin as (k & Hk & <-).
        apply Hall. rewrite Hrf, length_map in Hk. exact Hk.
      * intros ->. rewrite <- (Hall O Hpos). apply nth_In.
        rewrite Hrf, length_map. exact Hpos.
Qed.
End Spectrum.

Lemma cosine_amplitudes_spectrum_witness :
  eigh_contract eigh_diagonal /\
  exists m, Model_init 1 eigh_diagonal H_diagonal 1 = Ok m /\
    exists d, plot_cosine_amplitudes 1 m = Ok d /\
      forall t,
        dict_weighted (fun k => cos (IZR k * t)) d
        = Rsum (length (energies m)) (fun i =>
            Rsum (length (energies m)) (fun j =>
              item (transition_amplitude_matrix m) i j
              * cos (IZR (np_round (omega 1 m i j)) * t)))
        /\ ((forall i j, (i < length (energies m))%nat ->
                         (j < length (energies m))%nat ->
                         IZR (np_round (omega 1 m i j)) = omega 1 m i j) ->
            polarisation 1 m (Num t)
            = Ok (Num (dict_weighted (fun k => cos (IZR k * t)) d))).
Proof.
  split; [exact eigh_diagonal_contract|].
  eexists. split; [reflexivity|].
  apply (cosine_amplitudes_spectrum 1 eigh_diagonal eigh_diagonal_contract
           H_diagonal 1).
  reflexivity.
Defined.

Lemma degenerate_spectrum_is_flat_witness :
  eigh_contract eigh_diagonal /\
  exists m, Model_init 1 eigh_diagonal H_not_hermitian 1 = Ok m /\
    (forall i j, (i < length (energies m))%nat -> (j < length (energies m))%nat ->
       nth i (energies m) 0 = nth j (energies m) 0) /\
    (forall t, polarisation 1 m (Num t) = polarisation 1 m (Num 0)) /\
    exists d, plot_energy_levels 1 m = Ok d /\
      transitions d = ∅ /\
      frequency_levels d = {[ np_round (nth 0 (energies m) 0 / 1) ]}.
Proof.
  split; [exact eigh_diagonal_contract|].
  eexists. split; [reflexivity|].
  assert (forall i j : nat, (i < 2)%nat -> (j < 2)%nat ->
            nth i [0; 0] 0 = nth j [0; 0] 0) as Hdeg.
  { intros i j Hi Hj.
    destruct (lt_2_cases i Hi) as [-> | ->];
      destruct (lt_2_cases j Hj) as [-> | ->]; reflexivity. }
  split; [exact Hdeg|].
  apply (degenerate_spectrum_is_flat 1 eigh_diagonal eigh_diagonal_contract
           H_not_hermitian 1); [reflexivity | exact Hdeg].
Defined.
